(** * Hobby picker: the tree state and traversal engine

    A shallow embedding of the [Hobbies] component, in its variant with
    scores: the scored taxonomy, [sortByScore], the category
    colour cache, flattening and search, the selection store, the selection
    counts and the "show more" paging state, with the properties the
    specification states about them.

    Conventions of the embedding.
    - A JavaScript string is a [string]: a sequence of code units below 256
      (the Latin-1 range), which is where the whitespace and the letter case
      of the names of the taxonomy live.
    - A score, an index and a counter are integers ([Z] or [nat]); the
      arithmetic the component does on them is exact on JavaScript numbers.
    - [Math.random()] is a draw from a stream of rationals.
    - A [Map] and an object used as a dictionary are finite maps ([gmap]).
    - Arrays and objects live in a heap of cells where the code writes in
      place ([Array.prototype.sort]); elsewhere they are lists and records. *)

From Stdlib Require Import ZArith QArith Qround Ascii String List Sorted Permutation.
From stdpp Require Import gmap strings list fin_maps.

Local Open Scope Z_scope.

(** ** The taxonomy *)

(** [interface Hobby { name: string; items?: Hobby[]; score: number }];
    an absent [items] is [None]. *)
#[warnings="-register-all"]
Inductive Hobby : Type :=
  mkHobby { name : string; items : option (list Hobby); score : Z }.

(** ** [Array.prototype.sort]

    The sort of the language is stable, and for a consistent comparator its
    result is fixed by that: the elements in comparator order, elements the
    comparator makes equal in their order of the receiver. Insertion from the
    right computes it: [x] goes before the first element it may precede. *)
Section ArraySort.
Context {A : Type} (comparefn : A → A → Z).

Fixpoint sort_insert (x : A) (l : list A) : list A :=
  match l with
  | [] => [x]
  | y :: l' => if comparefn x y <=? 0 then x :: l else y :: sort_insert x l'
  end.

Fixpoint Array_sort (l : list A) : list A :=
  match l with
  | [] => []
  | x :: l' => sort_insert x (Array_sort l')
  end.
End ArraySort.

(** The comparator of [sortByScore]: [(a, b) => b.score - a.score]. *)
Definition byScore (a b : Hobby) : Z := score b - score a.

(** ** [sortByScore]

    [[...hobbies].sort(byScore).map(hobby => ({...hobby, items: hobby.items ?
    sortByScore(hobby.items) : undefined}))]. The recursion is on the nesting
    of the forest, which the fuel counts; [sortByScore] supplies the depth,
    so that the case without fuel, where the items are left as they are, is
    never reached ([sortByScore_eq] is the equation of the source). *)
Fixpoint depth (hobby : Hobby) : nat :=
  match items hobby with
  | None => 0
  | Some its => S (list_max (map depth its))
  end.

Definition forest_depth (hobbies : list Hobby) : nat :=
  S (list_max (map depth hobbies)).

Fixpoint sortByScore_fuel (fuel : nat) (hobbies : list Hobby) : list Hobby :=
  match fuel with
  | O => Array_sort byScore hobbies
  | S fuel' =>
      map (fun hobby =>
             mkHobby (name hobby)
                     (match items hobby with
                      | Some its => Some (sortByScore_fuel fuel' its)
                      | None => None
                      end)
                     (score hobby))
          (Array_sort byScore hobbies)
  end.

Definition sortByScore (hobbies : list Hobby) : list Hobby :=
  sortByScore_fuel (forest_depth hobbies) hobbies.

(** The node [.map] builds from [hobby] once its items are sorted. *)
Definition withSortedItems (sortItems : list Hobby → list Hobby) (hobby : Hobby) : Hobby :=
  mkHobby (name hobby) (sortItems <$> items hobby) (score hobby).

(** ** The heap: where [sortByScore] writes

    [[...hobbies]] allocates an array, [.sort] reorders that array in place,
    [.map] allocates another and the object literal allocates an object for
    each node. A cell is a [Hobby] object, whose [items] is a reference to an
    array, or an array of references to objects. *)
Definition loc := positive.

Inductive cell : Type :=
| Obj (nm : string) (its : option loc) (sc : Z)
| Arr (elems : list loc).

Abbreviation heap := (gmap loc cell).

(** [new]: the reference is one the heap does not use yet. *)
Definition alloc (c : cell) (h : heap) : loc * heap :=
  let l := fresh (dom h) in (l, <[l := c]> h).

(** [b.score - a.score] on references; a reference that is not to a [Hobby]
    has no score to read, and [.map] stops at it. *)
Definition scoreAt (h : heap) (r : loc) : Z :=
  match h !! r with
  | Some (Obj _ _ sc) => sc
  | _ => 0
  end.

Definition byScoreAt (h : heap) (a b : loc) : Z := scoreAt h b - scoreAt h a.

(** [Array.prototype.map] with a callback that allocates. *)
Fixpoint Array_map {A B : Type} (callbackfn : A → heap → option (B * heap))
    (l : list A) (h : heap) : option (list B * heap) :=
  match l with
  | [] => Some ([], h)
  | x :: l' =>
      match callbackfn x h with
      | Some (y, h1) =>
          match Array_map callbackfn l' h1 with
          | Some (ys, h2) => Some (y :: ys, h2)
          | None => None
          end
      | None => None
      end
  end.

(** [sortByScore] on the heap. [None] is a run that does not end in a value:
    a reference of the wrong kind, or fuel that ran out. *)
Fixpoint sortByScore_heap (fuel : nat) (hobbies : loc) (h : heap)
    : option (loc * heap) :=
  match fuel with
  | O => None
  | S fuel' =>
      match h !! hobbies with
      | Some (Arr refs) =>
          (* [...hobbies] *)
          let '(copy, h1) := alloc (Arr refs) h in
          (* .sort((a, b) => b.score - a.score), in place, on the copy *)
          let sorted := Array_sort (byScoreAt h1) refs in
          let h2 := <[copy := Arr sorted]> h1 in
          (* .map(hobby => ({...hobby, items: ...})) *)
          match
            Array_map
              (fun hobby h =>
                 match h !! hobby with
                 | Some (Obj nm its sc) =>
                     match its with
                     | Some arr =>
                         match sortByScore_heap fuel' arr h with
                         | Some (arr', h') => Some (alloc (Obj nm (Some arr') sc) h')
                         | None => None
                         end
                     | None => Some (alloc (Obj nm None sc) h)
                     end
                 | _ => None
                 end)
              sorted h2
          with
          | Some (mapped, h3) => Some (alloc (Arr mapped) h3)
          | None => None
          end
      | _ => None
      end
  end.

(** The heap [h] holds the forest [f] at [l]. *)
Fixpoint repr_node (h : heap) (r : loc) (hobby : Hobby) {struct hobby} : Prop :=
  match hobby with
  | mkHobby nm its sc =>
      ∃ oits, h !! r = Some (Obj nm oits sc) ∧
        match its, oits with
        | None, None => True
        | Some f, Some l =>
            ∃ refs, h !! l = Some (Arr refs) ∧
              (fix all2 (rs : list loc) (f : list Hobby) {struct f} : Prop :=
                 match rs, f with
                 | [], [] => True
                 | r' :: rs', hobby' :: f' => repr_node h r' hobby' ∧ all2 rs' f'
                 | _, _ => False
                 end) refs f
        | _, _ => False
        end
  end.

Definition repr_nodes (h : heap) : list loc → list Hobby → Prop :=
  fix all2 (rs : list loc) (f : list Hobby) {struct f} : Prop :=
    match rs, f with
    | [], [] => True
    | r :: rs', hobby :: f' => repr_node h r hobby ∧ all2 rs' f'
    | _, _ => False
    end.

Definition repr_forest (h : heap) (l : loc) (f : list Hobby) : Prop :=
  ∃ refs, h !! l = Some (Arr refs) ∧ repr_nodes h refs f.

(** Evaluating the literal of a forest: an object for every node, an array
    for every [items] and one for the top level. This is how the module that
    exports [data] puts the taxonomy in the heap. *)
Fixpoint literal_node (hobby : Hobby) (h : heap) {struct hobby} : loc * heap :=
  match hobby with
  | mkHobby nm its sc =>
      match its with
      | None => alloc (Obj nm None sc) h
      | Some f =>
          let '(refs, h1) :=
            (fix literal_all (f : list Hobby) (h : heap) {struct f}
               : list loc * heap :=
               match f with
               | [] => ([], h)
               | hobby' :: f' =>
                   let '(r, h1) := literal_node hobby' h in
                   let '(rs, h2) := literal_all f' h1 in
                   (r :: rs, h2)
               end) f h in
          let '(arr, h2) := alloc (Arr refs) h1 in
          alloc (Obj nm (Some arr) sc) h2
      end
  end.

Definition literal_nodes : list Hobby → heap → list loc * heap :=
  fix literal_all (f : list Hobby) (h : heap) {struct f} : list loc * heap :=
    match f with
    | [] => ([], h)
    | hobby' :: f' =>
        let '(r, h1) := literal_node hobby' h in
        let '(rs, h2) := literal_all f' h1 in
        (r :: rs, h2)
    end.

Definition literal_forest (f : list Hobby) (h : heap) : loc * heap :=
  let '(refs, h1) := literal_nodes f h in alloc (Arr refs) h1.

(** ** What the specification asks of the sorted forest

    At one level: the output is in descending score order, and for every
    score the siblings of that score are in the output the siblings of that
    score of the input, in the order of the input, each with its own children
    sorted in the same way. *)
Definition descending (a b : Hobby) : Prop := score b <= score a.

#[warnings="-register-all"]
Inductive sorted_node : Hobby → Hobby → Prop :=
| sorted_leaf nm sc : sorted_node (mkHobby nm None sc) (mkHobby nm None sc)
| sorted_inner nm sc inp out :
    StronglySorted descending out →
    (∀ v : Z, Forall2 sorted_node
                (filter (λ hobby, score hobby = v) inp)
                (filter (λ hobby, score hobby = v) out)) →
    sorted_node (mkHobby nm (Some inp) sc) (mkHobby nm (Some out) sc).

Definition sorted_forest (inp out : list Hobby) : Prop :=
  StronglySorted descending out ∧
  ∀ v : Z, Forall2 sorted_node
             (filter (λ hobby, score hobby = v) inp)
             (filter (λ hobby, score hobby = v) out).

(** ** Strings

    [String.prototype.trim], [toLowerCase] and [includes], on code units
    below 256. *)
Local Open Scope string_scope.

(** White space and line terminators of the language in that range: TAB, LF,
    VT, FF, CR, SP and NBSP. *)
Definition isWhiteSpace (c : ascii) : bool :=
  let n := N_of_ascii c in
  ((9 <=? n) && (n <=? 13) || (n =? 32) || (n =? 160))%N.

Fixpoint trimStart (s : string) : string :=
  match s with
  | EmptyString => EmptyString
  | String c s' => if isWhiteSpace c then trimStart s' else s
  end.

Fixpoint trimEnd (s : string) : string :=
  match s with
  | EmptyString => EmptyString
  | String c s' =>
      match trimEnd s' with
      | EmptyString => if isWhiteSpace c then EmptyString else String c EmptyString
      | t => String c t
      end
  end.

Definition trim (s : string) : string := trimEnd (trimStart s).

(** A to Z, and the capital letters of Latin-1 (all of 192..222 but the
    multiplication sign), are 32 below their small letters. *)
Definition lowerChar (c : ascii) : ascii :=
  let n := N_of_ascii c in
  if ((65 <=? n) && (n <=? 90) || (192 <=? n) && (n <=? 222) && negb (n =? 215))%N
  then ascii_of_N (n + 32)
  else c.

Fixpoint toLowerCase (s : string) : string :=
  match s with
  | EmptyString => EmptyString
  | String c s' => String (lowerChar c) (toLowerCase s')
  end.

Fixpoint String_includes (s searchString : string) : bool :=
  String.prefix searchString s ||
  match s with
  | EmptyString => false
  | String _ s' => String_includes s' searchString
  end.

(** [Array.prototype.includes] on an array of strings. *)
Definition Array_includes (l : list string) (x : string) : bool :=
  existsb (String.eqb x) l.

(** ** Numbers of the colour synthesis

    A channel is a number that may be [NaN] ([None]): that is what [parseInt]
    returns where it finds no digit, and arithmetic keeps it. *)
Definition number := option Z.

Definition hexValue (c : ascii) : option Z :=
  let n := Z.of_N (N_of_ascii c) in
  if ((48 <=? n) && (n <=? 57))%Z then Some (n - 48)
  else if ((97 <=? n) && (n <=? 102))%Z then Some (n - 87)
  else if ((65 <=? n) && (n <=? 70))%Z then Some (n - 55)
  else None.

Fixpoint parseHexDigits (acc : number) (s : string) : number :=
  match s with
  | EmptyString => acc
  | String c s' =>
      match hexValue c with
      | Some d => parseHexDigits (Some (16 * default 0 acc + d)) s'
      | None => acc
      end
  end.

(** [parseInt(s, 16)]: leading white space, a sign, [0x], then the longest
    run of hexadecimal digits. *)
Definition parseInt16 (s : string) : number :=
  let s1 := trimStart s in
  let '(sign, s2) :=
    match s1 with
    | String "-" s' => (-1, s')
    | String "+" s' => (1, s')
    | _ => (1, s1)
    end in
  let s3 :=
    match s2 with
    | String "0" (String "x" s') => s'
    | String "0" (String "X" s') => s'
    | _ => s2
    end in
  Z.mul sign <$> parseHexDigits None s3.

Definition hexDigit (d : Z) : ascii :=
  ascii_of_N (Z.to_N (if (d <? 10)%Z then 48 + d else 87 + d)).

Fixpoint hexDigits (fuel : nat) (n : Z) : string :=
  match fuel with
  | O => EmptyString
  | S fuel' =>
      if (n <? 16)%Z then String (hexDigit n) EmptyString
      else hexDigits fuel' (n / 16) ++ String (hexDigit (n mod 16)) EmptyString
  end.

(** [n.toString(16)] for an integer or [NaN]. *)
Definition toString16 (n : number) : string :=
  match n with
  | None => "NaN"
  | Some z =>
      if (z <? 0)%Z then "-" ++ hexDigits (S (Z.to_nat (- z))) (- z)
      else hexDigits (S (Z.to_nat z)) z
  end.

(** [s.padStart(2, "0")]. *)
Definition padStart2 (s : string) : string :=
  match s with
  | EmptyString => "00"
  | String c EmptyString => String "0" s
  | _ => s
  end.

(** [s.slice(i, j)] for [0 <= i <= j]. *)
Definition slice (i j : nat) (s : string) : string := substring i (j - i) s.

(** ** The category colours *)

Definition baseColors : list string :=
  [ "#FFD5D5"; "#D5FFD5"; "#D5D5FF"; "#FFD5FF"; "#FFFFC4";
    "#FFD5C4"; "#C4FFD5"; "#D5FFFF"; "#FFC4C4"; "#D5C4FF" ].

(** [Math.min(255, Math.max(0, n))]. *)
Definition clamp (n : number) : number :=
  (fun z => Z.min 255 (Z.max 0 z)) <$> n.

(** The process-wide state of the colour assigner: the [Map], and how many
    times [Math.random()] has been called. *)
Record ColorState : Type :=
  mkColorState { categoryColorsMap : gmap string string; randomCalls : nat }.

(** [array.forEach((x, index) => ...)] threading a state. *)
Fixpoint forEach_from {A St : Type} (callbackfn : A → nat → St → St)
    (l : list A) (index : nat) (st : St) : St :=
  match l with
  | [] => st
  | x :: l' => forEach_from callbackfn l' (S index) (callbackfn x index st)
  end.

Definition Array_forEach {A St : Type} (callbackfn : A → nat → St → St)
    (l : list A) (st : St) : St :=
  forEach_from callbackfn l 0%nat st.

Section Colors.
(** [Math_random k] is what the [k]-th call of [Math.random()] returns. *)
Variable Math_random : nat → Q.

(** [Math.floor(Math.random() * 30) - 15]. *)
Definition variation (calls : nat) : Z * nat :=
  (Qfloor (Math_random calls * 30) - 15, S calls).

Definition generateSimilarColor (index : nat) (calls : nat) : string * nat :=
  let baseColor := default "undefined" (baseColors !! (index mod length baseColors)%nat) in
  let r := parseInt16 (slice 1 3 baseColor) in
  let g := parseInt16 (slice 3 5 baseColor) in
  let b := parseInt16 (slice 5 7 baseColor) in
  let '(v1, calls1) := variation calls in
  let newR := clamp (Z.add v1 <$> r) in
  let '(v2, calls2) := variation calls1 in
  let newG := clamp (Z.add v2 <$> g) in
  let '(v3, calls3) := variation calls2 in
  let newB := clamp (Z.add v3 <$> b) in
  ("#" ++ String.concat "" (map (fun n => padStart2 (toString16 n)) [newR; newG; newB]),
   calls3).

Definition getCategoryColor (categoryName : string) (index : nat)
    (st : ColorState) : string * ColorState :=
  let st1 :=
    match categoryColorsMap st !! categoryName with
    | Some _ => st
    | None =>
        let '(color, calls) :=
          if (index <? length baseColors)%nat
          then (default "undefined" (baseColors !! index), randomCalls st)
          else generateSimilarColor index (randomCalls st) in
        mkColorState (<[categoryName := color]> (categoryColorsMap st)) calls
    end in
  (default "#FFFFFF" (categoryColorsMap st1 !! categoryName), st1).

(** [initializeCategoryColors], for the forest [data] the module imports. *)
Definition initializeCategoryColors (data : list Hobby) (st : ColorState)
    : ColorState :=
  let sortedData := sortByScore data in
  Array_forEach
    (fun hobby index st => snd (getCategoryColor (name hobby) index st))
    sortedData st.
End Colors.

(** The colour format: ["#"] and two hexadecimal digits for each of the
    three channels; [channels] reads them as [generateSimilarColor] does. *)
Definition hex2 (z : Z) : string :=
  String (hexDigit (z / 16)) (String (hexDigit (z mod 16)) EmptyString).

Definition hexColor (r g b : Z) : string :=
  String "#" (hex2 r ++ hex2 g ++ hex2 b).

Definition channels (color : string) : number * number * number :=
  (parseInt16 (slice 1 3 color), parseInt16 (slice 3 5 color),
   parseInt16 (slice 5 7 color)).

(** The offset one draw gives, and a channel kept within 8 bits. *)
Definition offset (draw : Q) : Z := Qfloor (draw * 30) - 15.

Definition clamp8 (z : Z) : Z := Z.min 255 (Z.max 0 z).

(** The [Map] is created empty, and nothing has been drawn. *)
Definition initialColorState : ColorState := mkColorState ∅ 0.

(** Any number of later calls of [getCategoryColor], each with its name and
    its index: the only code that writes the [Map]. *)
Definition getCategoryColor_calls (Math_random : nat → Q)
    (calls : list (string * nat)) (st : ColorState) : ColorState :=
  fold_left (fun st call => snd (getCategoryColor Math_random call.1 call.2 st))
            calls st.

(** ** Flattening and search *)
Local Open Scope list_scope.

(** What the reducer of [getAllHobbies] appends to [acc] for one node:
    [acc.push(hobby.name)], then [acc.push(...getAllHobbies(hobby.items))]
    when there are items. *)
Fixpoint getAllHobbies_push (hobby : Hobby) : list string :=
  [name hobby] ++
  match items hobby with
  | Some its => fold_left (fun acc hobby' => acc ++ getAllHobbies_push hobby') its []
  | None => []
  end.

(** [hobbies.reduce((acc, hobby) => ..., [])]. *)
Definition getAllHobbies (hobbies : list Hobby) : list string :=
  fold_left (fun acc hobby => acc ++ getAllHobbies_push hobby) hobbies [].

(** [traverse] of [getAllHobbiesInOrder]; [result] is the array the closure
    pushes to. *)
Fixpoint traverse (hobby : Hobby) (result : list string) : list string :=
  let result1 := result ++ [name hobby] in
  match items hobby with
  | Some its => fold_left (fun result' hobby' => traverse hobby' result') its result1
  | None => result1
  end.

Definition getAllHobbiesInOrder (hobbies : list Hobby) : list string :=
  fold_left (fun result hobby => traverse hobby result) (sortByScore hobbies) [].

(** The pre-order of the specification: a node, then its subtrees from left
    to right. *)
Fixpoint preorder (hobby : Hobby) : list string :=
  name hobby ::
  match items hobby with
  | Some its => concat (map preorder its)
  | None => []
  end.

Definition preorder_forest (f : list Hobby) : list string :=
  concat (map preorder f).

(** The flattened name list of the specification: the pre-order of the
    forest sorted by score at every level. *)
Definition flatten (forest : list Hobby) : list string :=
  preorder_forest (sortByScore forest).

(** The search state of the component. *)
Record SearchState : Type :=
  mkSearchState { searchTerm : string; filteredHobbies : list string }.

Definition handleSearch (data : list Hobby) (value : string) : SearchState :=
  let trimmedValue := trim value in
  if String.eqb trimmedValue "" then mkSearchState value []
  else
    let allHobbies := getAllHobbies (sortByScore data) in
    let searchLower := toLowerCase trimmedValue in
    let filtered :=
      List.filter (fun hobby => String_includes (toLowerCase hobby) searchLower)
                  allHobbies in
    mkSearchState value filtered.

(** [name] contains [q] without regard to case. *)
Definition contains_ci (hobby q : string) : Prop :=
  ∃ before after, toLowerCase hobby = (before ++ toLowerCase q ++ after)%string.

(** Nothing but white space. *)
Definition blank (s : string) : Prop :=
  Forall (fun c => isWhiteSpace c = true) (list_ascii_of_string s).

(** ** The selection store *)

Definition toggleHobby (hobby : string) (prev : list string) : list string :=
  if Array_includes prev hobby
  then List.filter (fun h => negb (String.eqb h hobby)) prev
  else prev ++ [hobby].

Definition clearAllHobbies (prev : list string) : list string := [].

Definition orderedSelectedHobbies (data : list Hobby)
    (selectedHobbies : list string) : list string :=
  List.filter (fun hobby => Array_includes selectedHobbies hobby)
              (getAllHobbiesInOrder data).

(** The user actions on the selection. *)
Inductive SelectionAction : Type :=
| Toggle (hobby : string)
| ClearAll.

Definition selection_step (prev : list string) (a : SelectionAction) : list string :=
  match a with
  | Toggle hobby => toggleHobby hobby prev
  | ClearAll => clearAllHobbies prev
  end.

(** ** Selection counts *)

Record Counts : Type := mkCounts { selected : nat; total : nat }.

Definition getSelectedCount (selectedHobbies : list string) (hobby : Hobby) : Counts :=
  match items hobby with
  | None => mkCounts 0 0
  | Some its =>
      fold_left
        (fun acc subHobby =>
           mkCounts (selected acc +
                       (if Array_includes selectedHobbies (name subHobby) then 1 else 0))
                    (total acc + 1))
        its (mkCounts 0 0)
  end.

(** ** "Show more"

    [expandedSections] is a [Record<string, number>], read and written at the
    path keys of the tree only. [v || 5] is 5 for a missing entry and for 0. *)
Definition orFive (v : option Z) : Z :=
  match v with
  | Some n => if (n =? 0)%Z then 5 else n
  | None => 5
  end.

(** [parentPath || "root"]. *)
Definition pathKey (parentPath : string) : string :=
  if String.eqb parentPath "" then "root" else parentPath.

Definition showMore (hobbyPath : string) (prev : gmap string Z) : gmap string Z :=
  <[hobbyPath := orFive (prev !! hobbyPath) + 5]> prev.

(** [expandedSections[key] || 5]: the visible count of a path key. *)
Definition visibleCountAt (expandedSections : gmap string Z) (key : string) : Z :=
  orFive (expandedSections !! key).

(** [visibleCount] of [renderItems]. *)
Definition visibleCount (expandedSections : gmap string Z) (parentPath : string) : Z :=
  visibleCountAt expandedSections (pathKey parentPath).

(** The state after [showMore] has been called with each of [keys] in turn,
    from the initial [{}]. *)
Definition showMore_each (keys : list string) : gmap string Z :=
  fold_left (fun expandedSections key => showMore key expandedSections) keys ∅.

(** The "show more" button of the list at [parentPath]. *)
Definition clickShowMore (expandedSections : gmap string Z) (parentPath : string)
    : gmap string Z :=
  showMore (pathKey parentPath) expandedSections.

(** ** Loading the selection

    [localStorage.getItem] and [JSON.parse] belong to the platform: each
    either returns or throws. *)
#[warnings="-register-all"]
Inductive JSValue : Type :=
| JNull
| JBool (b : bool)
| JNumber (n : Z)
| JString (s : string)
| JArray (elems : list JSValue)
| JObject (members : list (string * JSValue)).

Inductive completion (A : Type) : Type :=
| Normal (a : A)
| Throw.
Arguments Normal {A} a.
Arguments Throw {A}.

Definition try_catch {A : Type} (block handler : completion A) : completion A :=
  match block with
  | Normal a => Normal a
  | Throw => handler
  end.

Section Storage.
(** [getItem k]: the string stored under [k], [null] ([None]) when there is
    none, or an exception. [JSON_parse s]: the value, or an exception. *)
Variable getItem : string → completion (option string).
Variable JSON_parse : string → completion JSValue.

(** The initializer of the [selectedHobbies] state. [saved ? ... : ...] is
    false for [null] and for the empty string. *)
Definition loadSelectedHobbies : completion JSValue :=
  try_catch
    (match getItem "selectedHobbies" with
     | Normal saved =>
         match saved with
         | Some s => if String.eqb s "" then Normal (JArray []) else JSON_parse s
         | None => Normal (JArray [])
         end
     | Throw => Throw
     end)
    (Normal (JArray [])).
End Storage.

(** A platform for the examples: the storage holds the text [5] under the
    key, and [JSON.parse] is given on the texts that are one decimal digit,
    which it reads as that number. *)
Definition getItem_five (key : string) : completion (option string) :=
  if String.eqb key "selectedHobbies" then Normal (Some "5") else Normal None.

Definition JSON_parse_digit (text : string) : completion JSValue :=
  match text with
  | String c EmptyString =>
      let n := Z.of_N (N_of_ascii c) in
      if ((48 <=? n) && (n <=? 57))%Z then Normal (JNumber (n - 48)) else Throw
  | _ => Throw
  end.

(** ** The forest of the end-to-end scenario of the specification, and a
    heap that holds it at reference 1 *)
Definition example_forest : list Hobby :=
  [ mkHobby "Music" (Some [mkHobby "Guitar" None 5; mkHobby "Piano" None 8]) 10;
    mkHobby "Sports" None 7 ].

Definition example_heap : heap :=
  list_to_map
    [ (1%positive, Arr [2%positive; 3%positive]);
      (2%positive, Obj "Music" (Some 4%positive) 10);
      (3%positive, Obj "Sports" None 7);
      (4%positive, Arr [5%positive; 6%positive]);
      (5%positive, Obj "Guitar" None 5);
      (6%positive, Obj "Piano" None 8) ].

From Stdlib Require DecimalString.

(** ** The colour of a node: [getHobbyColor]

    [for (const hobby of hobbies) { ... return ...; }]: the value of the
    first iteration that returns, [null] when none does. *)
Fixpoint first_return {A B : Type} (body : A → option B) (l : list A) : option B :=
  match l with
  | [] => None
  | x :: l' =>
      match body x with
      | Some b => Some b
      | None => first_return body l'
      end
  end.

(** [if (found)] for a [string | null]: [null] and the empty string are
    false. *)
Definition truthy (found : option string) : bool :=
  match found with
  | Some s => negb (String.eqb s "")
  | None => false
  end.

(** One iteration of the loop of [findCategory]: what it returns, if it
    does. *)
Fixpoint findCategory_body (target : string) (hobby : Hobby) : option string :=
  if String.eqb (name hobby) target then Some (name hobby)
  else
    match items hobby with
    | Some its =>
        let found := first_return (findCategory_body target) its in
        if truthy found then Some (name hobby) else None
    | None => None
    end.

Definition findCategory (hobbies : list Hobby) (target : string) : option string :=
  first_return (findCategory_body target) hobbies.

(** [getHobbyColor], reading the [Map] as it is when the component
    renders. *)
Definition getHobbyColor (categoryColors : gmap string string) (data : list Hobby)
    (hobbyName : string) : string :=
  let category := findCategory (sortByScore data) hobbyName in
  match category with
  | Some c =>
      if truthy category then default "#FFFFFF" (categoryColors !! c) else "#FFFFFF"
  | None => "#FFFFFF"
  end.

(** ** The tree the component renders

    [hobbies.slice(0, end)]: a negative [end] counts from the end of the
    array. *)
Definition slice0 {A : Type} (end_ : Z) (l : list A) : list A :=
  let len := Z.of_nat (length l) in
  let final := if (end_ <? 0)%Z then Z.max (len + end_) 0 else Z.min end_ len in
  take (Z.to_nat final) l.

(** [`${n}`] for a count. *)
Definition numberToString (n : nat) : string :=
  DecimalString.NilZero.string_of_uint (Nat.to_uint n).

(** What is rendered, without the styling: the [<details>] of a node, with
    its React key, its colour, the id and the state of its check box, its
    label, its badge and, for a node with [items], the list below it; and the
    [<div>] of a list, with its rows and, when there is one, the "Show more"
    button with the number it shows and the path key it expands. *)
#[warnings="-register-all"]
Inductive Rendered : Type :=
| Details (key backgroundColor id : string) (checked : bool)
          (label countDisplay : string) (content : option Rendered)
| Items (rows : list Rendered) (showMoreButton : option (Z * string)).

(** [parentPath ? `${parentPath}-${hobby.name}` : hobby.name]. *)
Definition currentPathOf (parentPath hobbyName : string) : string :=
  if String.eqb parentPath "" then hobbyName
  else (parentPath ++ "-" ++ hobbyName)%string.

Section Render.
Variable categoryColors : gmap string string.
Variable data : list Hobby.
Variable selectedHobbies : list string.
Variable expandedSections : gmap string Z.

(** [renderHobby]; [renderItems] is the function it calls for the items. *)
Definition renderHobby (renderItems : list Hobby → string → Rendered)
    (hobby : Hobby) (parentPath : string) : Rendered :=
  let counts := getSelectedCount selectedHobbies hobby in
  let countDisplay :=
    if (0 <? total counts)%nat
    then (" (" ++ numberToString (selected counts) ++ "/" ++
          numberToString (total counts) ++ ")")%string
    else "" in
  let currentPath := currentPathOf parentPath (name hobby) in
  let isSelected := Array_includes selectedHobbies (name hobby) in
  let backgroundColor := getHobbyColor categoryColors data (name hobby) in
  Details (name hobby ++ "-" ++ currentPath)%string backgroundColor currentPath
          isSelected (name hobby) countDisplay
          (match items hobby with
           | Some its => Some (renderItems (sortByScore its) currentPath)
           | None => None
           end).

(** [renderItems]. The recursion, through [renderHobby], is on the nesting of
    the forest, which the fuel counts. *)
Fixpoint renderItems_fuel (fuel : nat) (hobbies : list Hobby) (parentPath : string)
    : Rendered :=
  let visibleCount := visibleCount expandedSections parentPath in
  let remainingCount := (Z.of_nat (length hobbies) - visibleCount)%Z in
  Items
    (map (fun hobby =>
            renderHobby
              (match fuel with
               | O => fun _ _ => Items [] None
               | S fuel' => renderItems_fuel fuel'
               end)
              hobby parentPath)
         (slice0 visibleCount hobbies))
    (if (0 <? remainingCount)%Z
     then Some (remainingCount, pathKey parentPath)
     else None).

Definition renderItems (hobbies : list Hobby) (parentPath : string) : Rendered :=
  renderItems_fuel (forest_depth hobbies) hobbies parentPath.

Definition renderHobbiesAndItems (hobbies : list Hobby) (parentPath : string)
    : Rendered :=
  renderItems (sortByScore hobbies) parentPath.

(** The tree of the page: [renderHobbiesAndItems(sortByScore(data))]. *)
Definition renderTree : Rendered := renderHobbiesAndItems (sortByScore data) "".
End Render.

(** The labels of a rendered tree, from top to bottom. *)
Fixpoint labels (r : Rendered) : list string :=
  match r with
  | Details _ _ _ _ label _ content =>
      label :: match content with
               | Some c => labels c
               | None => []
               end
  | Items rows _ => concat (map labels rows)
  end.

(** Its "Show more" buttons. *)
Fixpoint buttons (r : Rendered) : list (Z * string) :=
  match r with
  | Details _ _ _ _ _ _ content =>
      match content with
      | Some c => buttons c
      | None => []
      end
  | Items rows button =>
      concat (map buttons rows) ++
      match button with
      | Some b => [b]
      | None => []
      end
  end.

(** The id of every check box, with the labels from the top of the tree down
    to its node. *)
Fixpoint ids (ancestors : list string) (r : Rendered) : list (list string * string) :=
  match r with
  | Details _ _ id _ label _ content =>
      (ancestors ++ [label], id) ::
      match content with
      | Some c => ids (ancestors ++ [label]) c
      | None => []
      end
  | Items rows _ => concat (map (ids ancestors) rows)
  end.

(** The longest list of siblings of a forest. *)
Fixpoint width_below (hobby : Hobby) : nat :=
  match items hobby with
  | Some its => Nat.max (length its) (list_max (map width_below its))
  | None => 0
  end.

Definition width (f : list Hobby) : nat :=
  Nat.max (length f) (list_max (map width_below f)).

(** ** Colours by rank

    A well-formed colour: seven characters that read, as
    [generateSimilarColor] reads its seed, as three channels of 8 bits. *)
Definition validColor (color : string) : Prop :=
  String.length color = 7%nat ∧
  ∃ r g b, channels color = (Some r, Some g, Some b) ∧
           (0 <= r <= 255)%Z ∧ (0 <= g <= 255)%Z ∧ (0 <= b <= 255)%Z.

(** The colour the category of rank [index] gets at initialisation when the
    names of the categories are distinct: the palette entry, or past the
    palette the colour synthesised from the three draws that come after those
    of the ranks before it. *)
Definition rankColor (Math_random : nat → Q) (index : nat) : string :=
  if (index <? length baseColors)%nat
  then default "undefined" (baseColors !! index)
  else (generateSimilarColor Math_random index (3 * (index - length baseColors))).1.

(** Every colour the [Map] holds is well formed. *)
Definition validColors (st : ColorState) : Prop :=
  ∀ k c, categoryColorsMap st !! k = Some c → validColor c.

(** A forest of eleven categories, in descending score order. *)
Definition eleven_categories : list Hobby :=
  [ mkHobby "a" None 10; mkHobby "b" None 9; mkHobby "c" None 8;
    mkHobby "d" None 7; mkHobby "e" None 6; mkHobby "f" None 5;
    mkHobby "g" None 4; mkHobby "h" None 3; mkHobby "i" None 2;
    mkHobby "j" None 1; mkHobby "k" None 0 ].

(** The labels of the rows of a rendered list, and its button. *)
Definition row_labels (r : Rendered) : list string :=
  match r with
  | Items rows _ =>
      map (fun row => match row with
                      | Details _ _ _ _ label _ _ => label
                      | Items _ _ => ""
                      end) rows
  | Details _ _ _ _ _ _ _ => []
  end.

Definition button_of (r : Rendered) : option (Z * string) :=
  match r with
  | Items _ button => button
  | Details _ _ _ _ _ _ _ => None
  end.

(** A node and what [flatten] lists below it. *)
Definition preorder_sorted (hobby : Hobby) : list string :=
  name hobby :: match items hobby with
                | Some its => flatten its
                | None => []
                end.

(** * Properties *)
Local Open Scope Z_scope.

(** ** [Array.prototype.sort] *)
Section ArraySortFacts.
Context {A : Type} (comparefn : A → A → Z).

Lemma sort_insert_Permutation (x : A) (l : list A) :
  Permutation (x :: l) (sort_insert comparefn x l).
Proof.
  induction l as [|y l IH]; simpl; [reflexivity|].
  destruct (comparefn x y <=? 0); [reflexivity|].
  rewrite perm_swap. now apply perm_skip.
Qed.

Lemma Array_sort_Permutation (l : list A) :
  Permutation l (Array_sort comparefn l).
Proof.
  induction l as [|x l IH]; simpl; [reflexivity|].
  rewrite <- sort_insert_Permutation. now apply perm_skip.
Qed.

Lemma Array_sort_In (x : A) (l : list A) :
  In x (Array_sort comparefn l) ↔ In x l.
Proof.
  split; apply Permutation_in;
    [symmetry|]; apply Array_sort_Permutation.
Qed.

End ArraySortFacts.

(** ** Sorting by score: descending and stable *)

Lemma sort_insert_descending (x : Hobby) (l : list Hobby) :
  StronglySorted descending l →
  StronglySorted descending (sort_insert byScore x l).
Proof.
  induction 1 as [|y l Hl IH Hy]; simpl.
  - repeat constructor.
  - unfold byScore at 1. destruct (Z.leb_spec (score y - score x) 0) as [Hle|Hgt].
    + constructor; [now constructor|].
      constructor; [unfold descending; lia|].
      eapply Forall_impl; [exact Hy|]. unfold descending. intros; lia.
    + constructor; [exact IH|].
      apply List.Forall_forall. intros z Hz.
      apply (Permutation_in _ (Permutation_sym (sort_insert_Permutation byScore x l))) in Hz.
      destruct Hz as [<-|Hz]; [unfold descending; lia|].
      rewrite List.Forall_forall in Hy. now apply Hy.
Qed.

Lemma Array_sort_descending (l : list Hobby) :
  StronglySorted descending (Array_sort byScore l).
Proof.
  induction l as [|x l IH]; simpl; [constructor|].
  now apply sort_insert_descending.
Qed.

(** The siblings of one score come out as they went in. *)
Lemma sort_insert_stable (v : Z) (x : Hobby) (l : list Hobby) :
  filter (λ hobby, score hobby = v) (sort_insert byScore x l) =
  filter (λ hobby, score hobby = v) (x :: l).
Proof.
  induction l as [|y l IH]; simpl; [reflexivity|].
  unfold byScore at 1. destruct (Z.leb_spec (score y - score x) 0) as [Hle|Hgt];
    [reflexivity|].
  rewrite (filter_cons _ y), IH, !filter_cons.
  repeat case_decide; try reflexivity; lia.
Qed.

Lemma Array_sort_stable (v : Z) (l : list Hobby) :
  filter (λ hobby, score hobby = v) (Array_sort byScore l) =
  filter (λ hobby, score hobby = v) l.
Proof.
  induction l as [|x l IH]; simpl; [reflexivity|].
  rewrite sort_insert_stable, !filter_cons, IH. reflexivity.
Qed.

(** ** [sortByScore]: the recursion *)

Lemma depth_le_list_max (hobby : Hobby) (f : list Hobby) :
  In hobby f → (depth hobby ≤ list_max (map depth f))%nat.
Proof.
  induction f as [|y f IH]; simpl; [tauto|].
  intros [->|Hin]; [lia|]. specialize (IH Hin). lia.
Qed.

Lemma items_depth (hobby : Hobby) (its : list Hobby) :
  items hobby = Some its → forest_depth its = depth hobby.
Proof. destruct hobby as [nm [l|] sc]; simpl; intros [= ->]; reflexivity. Qed.

Lemma sortByScore_fuel_enough (fuel fuel' : nat) (f : list Hobby) :
  (forest_depth f ≤ fuel)%nat → (forest_depth f ≤ fuel')%nat →
  sortByScore_fuel fuel f = sortByScore_fuel fuel' f.
Proof.
  revert fuel' f. induction fuel as [|fuel IH]; intros fuel' f Hf Hf'.
  - unfold forest_depth in Hf; lia.
  - destruct fuel' as [|fuel']; [unfold forest_depth in Hf'; lia|].
    simpl. apply map_ext_in. intros hobby Hin.
    apply Array_sort_In in Hin. apply depth_le_list_max in Hin.
    destruct (items hobby) as [its|] eqn:Hits; [|reflexivity].
    apply items_depth in Hits. unfold forest_depth in Hf, Hf'.
    f_equal. f_equal. apply IH; lia.
Qed.

(** The equation of the source: sort the level, then rebuild every node
    with its items sorted. *)
Lemma sortByScore_eq (hobbies : list Hobby) :
  sortByScore hobbies =
  map (withSortedItems sortByScore) (Array_sort byScore hobbies).
Proof.
  unfold sortByScore at 1. unfold forest_depth. simpl.
  apply map_ext_in. intros hobby Hin.
  apply Array_sort_In in Hin. apply depth_le_list_max in Hin.
  unfold withSortedItems.
  destruct (items hobby) as [its|] eqn:Hits; [|reflexivity].
  simpl. f_equal. f_equal. unfold sortByScore.
  apply items_depth in Hits. apply sortByScore_fuel_enough; lia.
Qed.

Lemma descending_map (g : Hobby → Hobby) (l : list Hobby) :
  (∀ hobby, score (g hobby) = score hobby) →
  StronglySorted descending l → StronglySorted descending (map g l).
Proof.
  intros Hg. induction 1 as [|x l Hl IH Hx]; simpl; constructor; [exact IH|].
  rewrite List.Forall_forall in *. intros y Hy.
  apply in_map_iff in Hy as (z & <- & Hz). unfold descending.
  rewrite !Hg. now apply Hx.
Qed.

Lemma filter_score_map (g : Hobby → Hobby) (v : Z) (l : list Hobby) :
  (∀ hobby, score (g hobby) = score hobby) →
  filter (λ hobby, score hobby = v) (map g l) =
  map g (filter (λ hobby, score hobby = v) l).
Proof.
  intros Hg. induction l as [|x l IH]; simpl; [reflexivity|].
  rewrite !filter_cons, Hg, IH. now case_decide.
Qed.

Lemma Forall2_map_r_In {A B : Type} (R : A → B → Prop) (g : A → B) (l : list A) :
  (∀ x, In x l → R x (g x)) → Forall2 R l (map g l).
Proof.
  induction l as [|x l IH]; simpl; intros H; constructor; auto.
Qed.

(** Every level of [sortByScore f] is the level of [f] it comes from, in
    descending score order, with ties as they were. *)
Lemma sortByScore_sorted_forest (f : list Hobby) : sorted_forest f (sortByScore f).
Proof.
  remember (forest_depth f) as n eqn:Hn.
  assert (Hle : (forest_depth f ≤ n)%nat) by lia. clear Hn.
  revert f Hle. induction n as [|n IH]; intros f Hle.
  { unfold forest_depth in Hle; lia. }
  rewrite sortByScore_eq. split.
  - apply descending_map; [reflexivity|]. apply Array_sort_descending.
  - intros v. rewrite filter_score_map by reflexivity.
    rewrite Array_sort_stable.
    apply Forall2_map_r_In. intros hobby Hin.
    apply list_elem_of_In, list_elem_of_filter in Hin as [_ Hin].
    apply list_elem_of_In, depth_le_list_max in Hin.
    destruct hobby as [nm [its|] sc]; unfold withSortedItems; simpl.
    + simpl in Hin. unfold forest_depth in Hle.
      destruct (IH its) as [Hs Hst]; [unfold forest_depth; lia|].
      now constructor.
    + constructor.
Qed.

(** ** The heap run of [sortByScore] *)

Lemma Hobby_forest_ind (P : Hobby → Prop) :
  (∀ nm sc, P (mkHobby nm None sc)) →
  (∀ nm its sc, Forall P its → P (mkHobby nm (Some its) sc)) →
  ∀ hobby, P hobby.
Proof.
  intros Hleaf Hnode. fix IH 1. intros [nm [its|] sc].
  - apply Hnode. induction its as [|x its IHits]; constructor.
    + apply IH.
    + exact IHits.
  - apply Hleaf.
Qed.

Lemma repr_node_unfold (h : heap) (r : loc) (hobby : Hobby) :
  repr_node h r hobby ↔
  ∃ oits, h !! r = Some (Obj (name hobby) oits (score hobby)) ∧
    match items hobby, oits with
    | None, None => True
    | Some f, Some l => repr_forest h l f
    | _, _ => False
    end.
Proof. destruct hobby as [nm [its|] sc]; reflexivity. Qed.

Lemma repr_nodes_Forall2 (h : heap) (rs : list loc) (f : list Hobby) :
  repr_nodes h rs f ↔ Forall2 (repr_node h) rs f.
Proof.
  revert rs. induction f as [|hobby f IH]; intros [|r rs]; simpl.
  - split; [constructor|trivial].
  - split; [tauto|]. inversion 1.
  - split; [tauto|]. inversion 1.
  - rewrite IH. split.
    + intros [? ?]. now constructor.
    + inversion 1; subst. tauto.
Qed.

(** A forest a heap holds, a larger heap holds. *)
Lemma repr_node_mono (h h' : heap) (hobby : Hobby) :
  h ⊆ h' → ∀ r, repr_node h r hobby → repr_node h' r hobby.
Proof.
  intros Hsub. induction hobby as [nm sc|nm its sc IH] using Hobby_forest_ind;
    intros r; rewrite !repr_node_unfold; simpl.
  - intros (oits & Hr & Hits). exists oits. split; [|exact Hits].
    eapply lookup_weaken; eassumption.
  - intros (oits & Hr & Hits). exists oits. split.
    { eapply lookup_weaken; eassumption. }
    destruct oits as [l|]; [|exact Hits].
    destruct Hits as (refs & Hl & Hrefs). exists refs. split.
    { eapply lookup_weaken; eassumption. }
    apply repr_nodes_Forall2 in Hrefs. apply repr_nodes_Forall2.
    clear Hl. induction Hrefs as [|r' hobby' rs f Hr' Hrs IHrs]; constructor.
    + inversion IH; subst. auto.
    + inversion IH; subst. auto.
Qed.

Lemma repr_nodes_mono (h h' : heap) (rs : list loc) (f : list Hobby) :
  h ⊆ h' → repr_nodes h rs f → repr_nodes h' rs f.
Proof.
  intros Hsub. rewrite !repr_nodes_Forall2.
  induction 1; constructor; eauto using repr_node_mono.
Qed.

Lemma repr_forest_mono (h h' : heap) (l : loc) (f : list Hobby) :
  h ⊆ h' → repr_forest h l f → repr_forest h' l f.
Proof.
  intros Hsub (refs & Hl & Hrefs). exists refs. split.
  - eapply lookup_weaken; eassumption.
  - eapply repr_nodes_mono; eassumption.
Qed.

Lemma alloc_fresh (c : cell) (h : heap) : h !! (alloc c h).1 = None.
Proof. apply not_elem_of_dom. apply is_fresh. Qed.

Lemma alloc_subseteq (c : cell) (h : heap) : h ⊆ (alloc c h).2.
Proof. unfold alloc; simpl. apply insert_subseteq, not_elem_of_dom, is_fresh. Qed.

Lemma alloc_lookup (c : cell) (h : heap) : (alloc c h).2 !! (alloc c h).1 = Some c.
Proof. apply lookup_insert_eq. Qed.

(** The cells of [h'] that [h] does not have. *)
Lemma difference_mono (h1 h1' h2 h2' : heap) :
  h1 ⊆ h1' → h2' ⊆ h2 → h1 ∖ h2 ⊆ h1' ∖ h2'.
Proof.
  intros H1 H2. apply map_subseteq_spec. intros i x.
  rewrite !lookup_difference_Some. intros [Hx Hn]. split.
  - eapply lookup_weaken; eassumption.
  - eapply lookup_weaken_None; eassumption.
Qed.

Lemma scoreAt_repr (h : heap) (r : loc) (hobby : Hobby) :
  repr_node h r hobby → scoreAt h r = score hobby.
Proof.
  rewrite repr_node_unfold. intros (oits & Hr & _). unfold scoreAt. now rewrite Hr.
Qed.

Lemma sort_insert_Forall2 {A B : Type} (R : A → B → Prop)
    (c1 : A → A → Z) (c2 : B → B → Z) x x' l l' :
  (∀ a a' b b', R a a' → R b b' → c1 a b = c2 a' b') →
  R x x' → Forall2 R l l' →
  Forall2 R (sort_insert c1 x l) (sort_insert c2 x' l').
Proof.
  intros Hc Hx. induction 1 as [|y y' l l' Hy Hl IH]; simpl.
  - repeat constructor. exact Hx.
  - rewrite (Hc x x' y y') by assumption.
    destruct (c2 x' y' <=? 0); repeat constructor; assumption.
Qed.

Lemma Array_sort_Forall2 {A B : Type} (R : A → B → Prop)
    (c1 : A → A → Z) (c2 : B → B → Z) l l' :
  (∀ a a' b b', R a a' → R b b' → c1 a b = c2 a' b') →
  Forall2 R l l' → Forall2 R (Array_sort c1 l) (Array_sort c2 l').
Proof.
  intros Hc. induction 1; simpl; [constructor|].
  now apply sort_insert_Forall2.
Qed.

Lemma repr_nodes_sort (h h1 : heap) (rs : list loc) (f : list Hobby) :
  h ⊆ h1 → repr_nodes h rs f →
  repr_nodes h (Array_sort (byScoreAt h1) rs) (Array_sort byScore f).
Proof.
  intros Hsub. rewrite !repr_nodes_Forall2. apply Array_sort_Forall2.
  intros a a' b b' Ha Hb. unfold byScoreAt, byScore.
  apply (repr_node_mono _ _ _ Hsub) in Ha, Hb.
  now rewrite (scoreAt_repr _ _ _ Ha), (scoreAt_repr _ _ _ Hb).
Qed.

(** [.map] over references that hold [ts]: when the callback turns a holder
    of [t] into a new holder of [g t] and leaves the cells there are alone,
    so does the whole map. [h0] is the heap the run started from. *)
Lemma Array_map_repr (callbackfn : loc → heap → option (loc * heap))
    (g : Hobby → Hobby) (h0 : heap) (n : nat) :
  (∀ r t hc, h0 ⊆ hc → repr_node hc r t → (depth t ≤ n)%nat →
     ∃ r' hc', callbackfn r hc = Some (r', hc') ∧ hc ⊆ hc' ∧
               repr_node (hc' ∖ h0) r' (g t)) →
  ∀ ts rs hc, h0 ⊆ hc → Forall2 (repr_node hc) rs ts →
    Forall (λ t, (depth t ≤ n)%nat) ts →
    ∃ rs' hc', Array_map callbackfn rs hc = Some (rs', hc') ∧ hc ⊆ hc' ∧
               Forall2 (repr_node (hc' ∖ h0)) rs' (map g ts).
Proof.
  intros Hcb ts. induction ts as [|t ts IH]; intros rs hc Hsub Hrs Hdepth.
  - inversion Hrs; subst. exists [], hc. simpl.
    repeat split; [reflexivity|constructor].
  - inversion Hrs as [|r ? rs0 ? Hr Hrs0]; subst.
    inversion Hdepth as [|? ? Ht Hts]; subst.
    destruct (Hcb r t hc Hsub Hr Ht) as (r' & hc1 & Hrun & Hsub1 & Hr').
    destruct (IH rs0 hc1) as (rs' & hc2 & Hrun2 & Hsub2 & Hrs').
    + etrans; eassumption.
    + eapply Forall2_impl; [exact Hrs0|]. intros; eapply repr_node_mono; eauto.
    + exact Hts.
    + exists (r' :: rs'), hc2. simpl. rewrite Hrun, Hrun2.
      split; [reflexivity|]. split; [etrans; eassumption|].
      constructor; [|exact Hrs'].
      eapply repr_node_mono; [|exact Hr'].
      apply difference_mono; [exact Hsub2|reflexivity].
Qed.

(** The run of [sortByScore] on a heap that holds [f] at [l]: with fuel for
    the depth of [f] it returns; every cell of the heap it started from is
    as it was; and the cells it has allocated hold [sortByScore f]. *)
Lemma sortByScore_heap_refines (fuel : nat) :
  ∀ (f : list Hobby) (h : heap) (l : loc),
    (forest_depth f ≤ fuel)%nat → repr_forest h l f →
    ∃ l' h', sortByScore_heap fuel l h = Some (l', h') ∧ h ⊆ h' ∧
             repr_forest (h' ∖ h) l' (sortByScore f).
Proof.
  induction fuel as [|fuel IH]; intros f h l Hfuel (refs & Hl & Hrefs).
  { unfold forest_depth in Hfuel; lia. }
  simpl. rewrite Hl.
  set (copy := fresh (dom h)).
  assert (Hcopy : h !! copy = None) by apply not_elem_of_dom, is_fresh.
  set (h1 := <[copy := Arr refs]> h).
  set (sorted := Array_sort (byScoreAt h1) refs).
  set (h2 := <[copy := Arr sorted]> h1).
  assert (Hsub1 : h ⊆ h1) by now apply insert_subseteq.
  assert (Hsub2 : h ⊆ h2).
  { unfold h2, h1. rewrite insert_insert_eq. now apply insert_subseteq. }
  assert (Hsorted : Forall2 (repr_node h2) sorted (Array_sort byScore f)).
  { apply repr_nodes_Forall2.
    eapply repr_nodes_mono; [exact Hsub2|]. now apply repr_nodes_sort. }
  assert (Hdepth : Forall (λ t, (depth t ≤ fuel)%nat) (Array_sort byScore f)).
  { apply List.Forall_forall. intros t Ht. apply Array_sort_In in Ht.
    apply depth_le_list_max in Ht. unfold forest_depth in Hfuel. lia. }
  match goal with
  | |- context [Array_map ?cb sorted h2] => set (callbackfn := cb)
  end.
  destruct (Array_map_repr callbackfn (withSortedItems sortByScore) h fuel)
    with (ts := Array_sort byScore f) (rs := sorted) (hc := h2)
    as (mapped & h3 & Hrun & Hsub3 & Hmapped); try assumption.
  { intros r t hc Hsub Hr Ht. unfold callbackfn.
    apply repr_node_unfold in Hr as (oits & Hr & Hits). rewrite Hr.
    destruct (items t) as [its|] eqn:Eits, oits as [arr|]; try contradiction.
    - destruct (IH its hc arr) as (arr' & hc' & Hrun & Hsub' & Harr').
      { apply items_depth in Eits. lia. }
      { exact Hits. }
      rewrite Hrun.
      set (c := Obj (name t) (Some arr') (score t)).
      exists (alloc c hc').1, (alloc c hc').2.
      split; [reflexivity|]. split; [etrans; [exact Hsub'|apply alloc_subseteq]|].
      apply repr_node_unfold. unfold withSortedItems; simpl. rewrite Eits; simpl.
      exists (Some arr'). split.
      + apply lookup_difference_Some. split; [apply alloc_lookup|].
        eapply lookup_weaken_None; [apply (alloc_fresh c)|]. etrans; eassumption.
      + eapply repr_forest_mono; [|exact Harr'].
        apply difference_mono; [apply alloc_subseteq|exact Hsub].
    - set (c := Obj (name t) None (score t)).
      exists (alloc c hc).1, (alloc c hc).2.
      split; [reflexivity|]. split; [apply alloc_subseteq|].
      apply repr_node_unfold. unfold withSortedItems; simpl. rewrite Eits; simpl.
      exists None. split; [|trivial].
      apply lookup_difference_Some. split; [apply alloc_lookup|].
      eapply lookup_weaken_None; [apply (alloc_fresh c)|exact Hsub]. }
  rewrite Hrun.
  exists (alloc (Arr mapped) h3).1, (alloc (Arr mapped) h3).2.
  split; [reflexivity|].
  assert (Hsub4 : h ⊆ h3) by (etrans; eassumption).
  split; [etrans; [exact Hsub4|apply alloc_subseteq]|].
  exists mapped. split.
  - apply lookup_difference_Some. split; [apply alloc_lookup|].
    eapply lookup_weaken_None; [apply (alloc_fresh (Arr mapped))|exact Hsub4].
  - rewrite sortByScore_eq. apply repr_nodes_Forall2.
    eapply Forall2_impl; [exact Hmapped|]. intros r t.
    apply repr_node_mono, difference_mono; [apply alloc_subseteq|reflexivity].
Qed.

(** ** Every forest is held by some heap *)

Lemma literal_node_unfold (hobby : Hobby) (h : heap) :
  literal_node hobby h =
  match items hobby with
  | None => alloc (Obj (name hobby) None (score hobby)) h
  | Some f =>
      let '(refs, h1) := literal_nodes f h in
      let '(arr, h2) := alloc (Arr refs) h1 in
      alloc (Obj (name hobby) (Some arr) (score hobby)) h2
  end.
Proof. destruct hobby as [nm [its|] sc]; reflexivity. Qed.

Lemma literal_nodes_cons (hobby : Hobby) (f : list Hobby) (h : heap) :
  literal_nodes (hobby :: f) h =
  let '(r, h1) := literal_node hobby h in
  let '(rs, h2) := literal_nodes f h1 in
  (r :: rs, h2).
Proof. reflexivity. Qed.

Lemma literal_nodes_repr (f : list Hobby) :
  Forall (λ hobby, ∀ h, h ⊆ (literal_node hobby h).2 ∧
                        repr_node (literal_node hobby h).2
                                  (literal_node hobby h).1 hobby) f →
  ∀ h, h ⊆ (literal_nodes f h).2 ∧
       repr_nodes (literal_nodes f h).2 (literal_nodes f h).1 f.
Proof.
  induction 1 as [|hobby f Hhobby _ IH]; intros h.
  - split; [reflexivity|exact I].
  - rewrite literal_nodes_cons.
    destruct (Hhobby h) as [Hsub1 Hr].
    destruct (literal_node hobby h) as [r h1]; simpl in Hsub1, Hr.
    destruct (IH h1) as [Hsub2 Hrs].
    destruct (literal_nodes f h1) as [rs h2]; simpl in Hsub2, Hrs. simpl.
    split; [etrans; eassumption|].
    split; [|exact Hrs]. eapply repr_node_mono; eassumption.
Qed.

Lemma literal_node_repr (hobby : Hobby) :
  ∀ h, h ⊆ (literal_node hobby h).2 ∧
       repr_node (literal_node hobby h).2 (literal_node hobby h).1 hobby.
Proof.
  induction hobby as [nm sc|nm its sc IH] using Hobby_forest_ind; intros h;
    rewrite literal_node_unfold; simpl.
  - split; [apply alloc_subseteq|].
    exists None. split; [apply lookup_insert_eq|exact I].
  - destruct (literal_nodes_repr its IH h) as [Hsub Hrs].
    destruct (literal_nodes its h) as [refs h1]; simpl in Hsub, Hrs.
    set (arr := fresh (dom h1)). set (h2 := <[arr := Arr refs]> h1).
    assert (Hsub2 : h1 ⊆ h2) by apply insert_subseteq, not_elem_of_dom, is_fresh.
    assert (Hsub3 : h2 ⊆ (alloc (Obj nm (Some arr) sc) h2).2)
      by apply alloc_subseteq.
    simpl. split; [etrans; [exact Hsub|]; etrans; eassumption|].
    exists (Some arr). split; [apply lookup_insert_eq|].
    change (repr_forest (alloc (Obj nm (Some arr) sc) h2).2 arr its).
    eapply repr_forest_mono; [exact Hsub3|].
    exists refs. split; [apply lookup_insert_eq|].
    eapply repr_nodes_mono; eassumption.
Qed.

(** The heap the literal of [f] leaves holds [f], whatever was there. *)
Lemma literal_forest_repr (f : list Hobby) (h : heap) :
  h ⊆ (literal_forest f h).2 ∧
  repr_forest (literal_forest f h).2 (literal_forest f h).1 f.
Proof.
  unfold literal_forest.
  destruct (literal_nodes_repr f) with (h := h) as [Hsub Hrs].
  { apply List.Forall_forall. intros hobby _. apply literal_node_repr. }
  destruct (literal_nodes f h) as [refs h1]; simpl in Hsub, Hrs.
  split; [etrans; [exact Hsub|apply alloc_subseteq]|].
  exists refs. split; [apply alloc_lookup|].
  eapply repr_nodes_mono; [apply alloc_subseteq|exact Hrs].
Qed.

(** C1. For every forest [f]: the forest [sortByScore] computes is, at
    every level, in descending score order with the siblings of equal score
    in their order of the input ([sorted_forest]). For every heap [h] that
    holds [f] at [l]: the run of [sortByScore] on the heap returns, given fuel
    for the depth of [f]; every cell of [h] still has its content afterwards,
    so the input forest is still held at [l]; and the result is held by cells
    the run has allocated, none of them a cell of [h]. And there is such a
    heap for every forest: the one its literal builds. *)
Theorem sortByScore_sorted_stable_unmutated (f : list Hobby) :
  sorted_forest f (sortByScore f) ∧
  (∀ (h : heap) (l : loc) (fuel : nat),
     repr_forest h l f → (forest_depth f ≤ fuel)%nat →
     ∃ l' h', sortByScore_heap fuel l h = Some (l', h') ∧
       (∀ r c, h !! r = Some c → h' !! r = Some c) ∧
       repr_forest h' l f ∧
       repr_forest (h' ∖ h) l' (sortByScore f)) ∧
  repr_forest (literal_forest f ∅).2 (literal_forest f ∅).1 f.
Proof.
  split; [apply sortByScore_sorted_forest|]. split; [|apply literal_forest_repr].
  intros h l fuel Hrepr Hfuel.
  destruct (sortByScore_heap_refines fuel f h l Hfuel Hrepr)
    as (l' & h' & Hrun & Hsub & Hout).
  exists l', h'. split; [exact Hrun|]. split; [|split].
  - intros r c Hr. eapply lookup_weaken; eassumption.
  - eapply repr_forest_mono; eassumption.
  - exact Hout.
Qed.

(** The forest of the scenario, in the heap that holds it at reference 1:
    the run returns reference 14, and the array at reference 4 (the items of
    Music) is still Guitar, Piano. *)
Lemma sortByScore_sorted_stable_unmutated_witness :
  repr_forest example_heap 1%positive example_forest ∧
  (forest_depth example_forest ≤ 2)%nat ∧
  ∃ l' h', sortByScore_heap 2 1%positive example_heap = Some (l', h') ∧
    (∀ r c, example_heap !! r = Some c → h' !! r = Some c) ∧
    repr_forest h' 1%positive example_forest ∧
    repr_forest (h' ∖ example_heap) l' (sortByScore example_forest).
Proof.
  assert (Hrepr : repr_forest example_heap 1%positive example_forest).
  { exists [2; 3]%positive. split; [vm_compute; reflexivity|].
    simpl. split; [|split; [|exact I]].
    - exists (Some 4%positive). split; [vm_compute; reflexivity|].
      exists [5; 6]%positive. split; [vm_compute; reflexivity|].
      repeat split; exists None; (split; [vm_compute; reflexivity|exact I]).
    - exists None. split; [vm_compute; reflexivity|exact I]. }
  assert (Hfuel : (forest_depth example_forest ≤ 2)%nat) by (vm_compute; lia).
  split; [exact Hrepr|]. split; [exact Hfuel|].
  exact (proj1 (proj2 (sortByScore_sorted_stable_unmutated example_forest))
           example_heap 1%positive 2%nat Hrepr Hfuel).
Defined.

(** ** The category colours *)
Section ColorFacts.
Variable Math_random : nat → Q.

(** A call leaves every entry of the [Map] as it is. *)
Lemma getCategoryColor_keeps categoryName index st k v :
  categoryColorsMap st !! k = Some v →
  categoryColorsMap (getCategoryColor Math_random categoryName index st).2 !! k
    = Some v.
Proof.
  intros Hk. unfold getCategoryColor; simpl.
  destruct (categoryColorsMap st !! categoryName) as [c|] eqn:Hn; [exact Hk|].
  destruct (if (index <? length baseColors)%nat then _ else _) as [color calls].
  simpl. rewrite lookup_insert_ne; [exact Hk|]. intros ->. congruence.
Qed.

(** A call returns what the [Map] holds for the name afterwards. *)
Lemma getCategoryColor_stored categoryName index st :
  categoryColorsMap (getCategoryColor Math_random categoryName index st).2
    !! categoryName
  = Some (getCategoryColor Math_random categoryName index st).1.
Proof.
  unfold getCategoryColor; simpl.
  destruct (categoryColorsMap st !! categoryName) as [c|] eqn:Hn.
  - rewrite Hn. reflexivity.
  - destruct (if (index <? length baseColors)%nat then _ else _) as [color calls].
    simpl. rewrite lookup_insert_eq. reflexivity.
Qed.

(** A call for a name the [Map] has returns the entry. *)
Lemma getCategoryColor_known categoryName index st v :
  categoryColorsMap st !! categoryName = Some v →
  getCategoryColor Math_random categoryName index st = (v, st).
Proof. intros Hn. unfold getCategoryColor. rewrite Hn. simpl. now rewrite Hn. Qed.

Lemma getCategoryColor_calls_keeps calls st k v :
  categoryColorsMap st !! k = Some v →
  categoryColorsMap (getCategoryColor_calls Math_random calls st) !! k = Some v.
Proof.
  revert st. induction calls as [|[n i] calls IH]; intros st Hk; [exact Hk|].
  simpl. apply IH. now apply getCategoryColor_keeps.
Qed.
End ColorFacts.

(** C6. Once [getCategoryColor] has been called for a name, every later call
    for that name, with any index and after any other calls, returns the same
    colour; and a call keeps every entry of the [Map]: keys are only added,
    and the value of a key never changes. *)
Theorem getCategoryColor_idempotent (Math_random : nat → Q)
    (st : ColorState) (categoryName : string) (index : nat)
    (calls : list (string * nat)) (index' : nat) :
  let first := getCategoryColor Math_random categoryName index st in
  let later := getCategoryColor_calls Math_random calls first.2 in
  (getCategoryColor Math_random categoryName index' later).1 = first.1 ∧
  (∀ k v, categoryColorsMap st !! k = Some v →
          categoryColorsMap first.2 !! k = Some v) ∧
  (∀ k v, categoryColorsMap first.2 !! k = Some v →
          categoryColorsMap later !! k = Some v) ∧
  (∀ k v, categoryColorsMap later !! k = Some v →
          categoryColorsMap (getCategoryColor Math_random categoryName index' later).2
            !! k = Some v).
Proof.
  intros first later. split; [|split; [|split]].
  - assert (H : categoryColorsMap later !! categoryName = Some first.1).
    { apply getCategoryColor_calls_keeps, getCategoryColor_stored. }
    now rewrite (getCategoryColor_known _ _ _ _ _ H).
  - intros k v. apply getCategoryColor_keeps.
  - intros k v. apply getCategoryColor_calls_keeps.
  - intros k v. apply getCategoryColor_keeps.
Qed.

(** ** Initialisation of the colours *)
Section InitFacts.
Variable Math_random : nat → Q.

Let assign (hobby : Hobby) (index : nat) (st : ColorState) : ColorState :=
  (getCategoryColor Math_random (name hobby) index st).2.

Lemma forEach_assign_keeps l k st key v :
  categoryColorsMap st !! key = Some v →
  categoryColorsMap (forEach_from assign l k st) !! key = Some v.
Proof.
  revert k st. induction l as [|x l IH]; intros k st Hkey; [exact Hkey|].
  simpl. apply IH. now apply getCategoryColor_keeps.
Qed.

(** A new name with an index inside the palette gets the palette entry. *)
Lemma getCategoryColor_new_palette categoryName index st color :
  categoryColorsMap st !! categoryName = None →
  baseColors !! index = Some color →
  getCategoryColor Math_random categoryName index st =
  (color, mkColorState (<[categoryName := color]> (categoryColorsMap st))
                       (randomCalls st)).
Proof.
  intros Hn Hc. unfold getCategoryColor. rewrite Hn.
  apply lookup_lt_Some in Hc as Hlt. apply Nat.ltb_lt in Hlt. rewrite Hlt, Hc.
  simpl. now rewrite lookup_insert_eq.
Qed.

Lemma forEach_assign_palette l k st :
  NoDup (map name l) →
  (∀ hobby, In hobby l → categoryColorsMap st !! name hobby = None) →
  (k + length l ≤ length baseColors)%nat →
  ∀ j hobby, l !! j = Some hobby →
    categoryColorsMap (forEach_from assign l k st) !! name hobby
    = baseColors !! (k + j)%nat.
Proof.
  revert k st. induction l as [|x l IH]; intros k st Hnd Hnew Hlen j hobby Hj.
  { discriminate. }
  simpl in Hlen. apply NoDup_cons in Hnd as [Hx Hnd].
  destruct (lookup_lt_is_Some_2 baseColors k) as [color Hcolor]; [simpl; lia|].
  simpl. unfold assign at 2.
  rewrite (getCategoryColor_new_palette _ _ _ color) by (auto using in_eq).
  simpl. destruct j as [|j]; simpl in Hj.
  - injection Hj as ->. rewrite Nat.add_0_r, Hcolor.
    apply forEach_assign_keeps. simpl. apply lookup_insert_eq.
  - replace (k + S j)%nat with (S k + j)%nat by lia.
    apply IH; try assumption; [|simpl; lia].
    intros hobby' Hin. simpl. rewrite lookup_insert_ne.
    + apply Hnew. now right.
    + intros Heq. apply Hx. rewrite Heq. apply list_elem_of_In.
      now apply in_map.
Qed.
End InitFacts.

Lemma name_sortByScore (data : list Hobby) :
  map name (sortByScore data) = map name (Array_sort byScore data).
Proof. rewrite sortByScore_eq, map_map. reflexivity. Qed.

Lemma score_sortByScore (data : list Hobby) :
  map score (sortByScore data) = map score (Array_sort byScore data).
Proof. rewrite sortByScore_eq, map_map. reflexivity. Qed.

Lemma length_sortByScore (data : list Hobby) :
  length (sortByScore data) = length data.
Proof.
  rewrite sortByScore_eq, length_map.
  symmetry. apply Permutation_length, Array_sort_Permutation.
Qed.

(** The first node of the sorted level has the highest score of the level. *)
Lemma sortByScore_head_max (data : list Hobby) (top : Hobby) :
  sortByScore data !! 0%nat = Some top →
  ∀ hobby, In hobby data → score hobby <= score top.
Proof.
  intros Htop hobby Hin.
  assert (Hs : In (score hobby) (map score (sortByScore data))).
  { rewrite score_sortByScore. apply in_map. now apply Array_sort_In. }
  destruct (sortByScore_sorted_forest data) as [Hsorted _].
  destruct (sortByScore data) as [|t rest]; [discriminate|].
  injection Htop as ->. apply StronglySorted_inv in Hsorted as [_ Hall].
  simpl in Hs. destruct Hs as [<-|Hs]; [lia|].
  apply in_map_iff in Hs as (h' & <- & Hh').
  rewrite List.Forall_forall in Hall. now apply Hall.
Qed.



(** ** Colour synthesis *)

Lemma offset_range (draw : Q) :
  (0 <= draw)%Q → (draw < 1)%Q → -15 <= offset draw <= 14.
Proof.
  intros H0 H1. unfold offset.
  assert (Hlo : 0 <= Qfloor (draw * 30)).
  { rewrite <- (Qfloor_Z 0). apply Qfloor_resp_le.
    change (inject_Z 0) with (0 * 30)%Q. apply Qmult_le_compat_r; [exact H0|].
    discriminate. }
  assert (Hhi : Qfloor (draw * 30) < 30).
  { rewrite Zlt_Qlt. eapply Qle_lt_trans; [apply Qfloor_le|].
    change (inject_Z 30) with (1 * 30)%Q. apply Qmult_lt_compat_r; [reflexivity|].
    exact H1. }
  lia.
Qed.

(** The two digits [toString(16).padStart(2, "0")] writes for a channel, and
    [parseInt] reading them back. *)
Lemma hex2_channel (z : Z) :
  0 <= z <= 255 →
  padStart2 (toString16 (Some z)) = hex2 z ∧ parseInt16 (hex2 z) = Some z.
Proof.
  intros Hz.
  assert (Hall : forallb
            (fun n => let z := Z.of_nat n in
               String.eqb (padStart2 (toString16 (Some z))) (hex2 z) &&
               match parseInt16 (hex2 z) with
               | Some z' => (z' =? z)
               | None => false
               end)
            (seq 0 256) = true) by (vm_compute; reflexivity).
  rewrite forallb_forall in Hall.
  assert (Hin : In (Z.to_nat z) (seq 0 256)) by (apply in_seq; lia).
  apply Hall in Hin. cbv zeta in Hin. rewrite Z2Nat.id in Hin by lia.
  apply andb_true_iff in Hin as [Hs Hp].
  apply String.eqb_eq in Hs. split; [exact Hs|].
  destruct (parseInt16 (hex2 z)) as [z'|]; [|discriminate].
  apply Z.eqb_eq in Hp. now subst.
Qed.

Lemma clamp8_range (z : Z) : 0 <= clamp8 z <= 255.
Proof. unfold clamp8. lia. Qed.

Lemma channels_hexColor (r g b : Z) :
  channels (hexColor r g b) =
  (parseInt16 (hex2 r), parseInt16 (hex2 g), parseInt16 (hex2 b)).
Proof. reflexivity. Qed.

(** Every palette entry decodes to three 8-bit channels. *)
Lemma baseColors_channels (m : nat) :
  (m < 10)%nat →
  ∃ seed r g b, baseColors !! m = Some seed ∧
    channels seed = (Some r, Some g, Some b) ∧
    0 <= r <= 255 ∧ 0 <= g <= 255 ∧ 0 <= b <= 255.
Proof.
  intros Hm.
  do 10 (destruct m as [|m];
         [eexists _, _, _, _; split; [reflexivity|];
          split; [vm_compute; reflexivity|lia]|]).
  lia.
Qed.

Lemma generateSimilarColor_eq (Math_random : nat → Q) (index calls : nat)
    (seed : string) (r g b : Z) :
  baseColors !! (index mod 10)%nat = Some seed →
  channels seed = (Some r, Some g, Some b) →
  generateSimilarColor Math_random index calls =
  (hexColor (clamp8 (offset (Math_random calls) + r))
            (clamp8 (offset (Math_random (S calls)) + g))
            (clamp8 (offset (Math_random (S (S calls))) + b)),
   S (S (S calls))).
Proof.
  intros Hseed Hch. unfold generateSimilarColor, variation.
  change (length baseColors) with 10%nat. rewrite Hseed.
  unfold channels in Hch. injection Hch as Hr Hg Hb.
  cbn [default from_option id]. rewrite Hr, Hg, Hb.
  cbn [fmap option_fmap option_map clamp List.map map String.concat].
  fold (offset (Math_random calls)) (offset (Math_random (S calls)))
       (offset (Math_random (S (S calls)))).
  fold (clamp8 (offset (Math_random calls) + r))
       (clamp8 (offset (Math_random (S calls)) + g))
       (clamp8 (offset (Math_random (S (S calls))) + b)).
  rewrite !(proj1 (hex2_channel _ (clamp8_range _))).
  reflexivity.
Qed.



(** ** Flattening *)

Lemma fold_left_app_concat {A B : Type} (f : A → list B) (l : list A) (acc : list B) :
  fold_left (fun acc x => acc ++ f x) l acc = acc ++ concat (map f l).
Proof.
  revert acc. induction l as [|x l IH]; intros acc; simpl.
  - now rewrite app_nil_r.
  - now rewrite IH, app_assoc.
Qed.

Lemma getAllHobbies_push_preorder (hobby : Hobby) :
  getAllHobbies_push hobby = preorder hobby.
Proof.
  induction hobby as [nm sc|nm its sc IH] using Hobby_forest_ind; simpl;
    [reflexivity|].
  rewrite fold_left_app_concat. simpl. f_equal. f_equal.
  induction IH as [|x l Hx Hl IHl]; simpl; [reflexivity|].
  now rewrite Hx, IHl.
Qed.

(** [getAllHobbies] is the pre-order of the forest it is given. *)
Lemma getAllHobbies_preorder (hobbies : list Hobby) :
  getAllHobbies hobbies = preorder_forest hobbies.
Proof.
  unfold getAllHobbies, preorder_forest. rewrite fold_left_app_concat. simpl.
  f_equal. apply map_ext. intros; apply getAllHobbies_push_preorder.
Qed.

Lemma getAllHobbies_reduce (hobbies : list Hobby) (acc0 : list string) :
  fold_left (fun acc hobby => acc ++ getAllHobbies_push hobby) hobbies acc0 =
  fold_left
    (fun acc hobby =>
       let acc1 := acc ++ [name hobby] in
       match items hobby with
       | Some its => acc1 ++ getAllHobbies its
       | None => acc1
       end)
    hobbies acc0.
Proof.
  revert acc0. induction hobbies as [|hobby hobbies IH]; intros acc0; simpl;
    [reflexivity|].
  rewrite IH. f_equal. destruct hobby as [nm [its|] sc]; simpl.
  - unfold getAllHobbies. now rewrite <- app_assoc.
  - reflexivity.
Qed.

(** The reducer as the source writes it. *)
Lemma getAllHobbies_eq (hobbies : list Hobby) :
  getAllHobbies hobbies =
  fold_left
    (fun acc hobby =>
       let acc1 := acc ++ [name hobby] in
       match items hobby with
       | Some its => acc1 ++ getAllHobbies its
       | None => acc1
       end)
    hobbies [].
Proof. apply getAllHobbies_reduce. Qed.

Lemma traverse_preorder (hobby : Hobby) (result : list string) :
  traverse hobby result = result ++ preorder hobby.
Proof.
  revert result.
  induction hobby as [nm sc|nm its sc IH] using Hobby_forest_ind;
    intros result; simpl; [reflexivity|].
  change (nm :: concat (map preorder its)) with ([nm] ++ concat (map preorder its)).
  rewrite app_assoc. generalize (result ++ [nm]). clear result.
  induction IH as [|x l Hx Hl IHl]; intros acc; simpl.
  - now rewrite app_nil_r.
  - now rewrite Hx, IHl, app_assoc.
Qed.

(** [getAllHobbiesInOrder] is the pre-order of the sorted forest. *)
Lemma getAllHobbiesInOrder_flatten (hobbies : list Hobby) :
  getAllHobbiesInOrder hobbies = flatten hobbies.
Proof.
  unfold getAllHobbiesInOrder, flatten, preorder_forest.
  generalize (sortByScore hobbies). intros l.
  enough (H : ∀ acc, fold_left (fun result hobby => traverse hobby result) l acc
                     = acc ++ concat (map preorder l)) by apply H.
  induction l as [|x l IH]; intros acc; simpl.
  - now rewrite app_nil_r.
  - now rewrite traverse_preorder, IH, app_assoc.
Qed.

(** ** Strings *)

Lemma trimStart_empty (s : string) : trimStart s = EmptyString ↔ blank s.
Proof.
  unfold blank. induction s as [|c s IH]; simpl.
  - split; [constructor|reflexivity].
  - destruct (isWhiteSpace c) eqn:Hc.
    + rewrite IH. split; [now constructor|]. now inversion 1.
    + split; [discriminate|]. inversion 1; congruence.
Qed.

Lemma trimEnd_empty (s : string) : trimEnd s = EmptyString ↔ blank s.
Proof.
  unfold blank. induction s as [|c s IH]; simpl.
  - split; [constructor|reflexivity].
  - destruct (trimEnd s) as [|c' t] eqn:Ht.
    + destruct (isWhiteSpace c) eqn:Hc.
      * split; [|reflexivity]. intros _. constructor; [exact Hc|]. now apply IH.
      * split; [discriminate|]. inversion 1; congruence.
    + split; [discriminate|]. inversion 1 as [|? ? _ Hs]; subst.
      apply IH in Hs. discriminate.
Qed.

Lemma blank_trimStart (s : string) : blank (trimStart s) → blank s.
Proof.
  unfold blank. induction s as [|c s IH]; simpl; [trivial|].
  destruct (isWhiteSpace c) eqn:Hc; [|trivial].
  intros H. constructor; auto.
Qed.

(** The trimmed query is empty exactly when the query is white space only. *)
Lemma trim_empty (s : string) : trim s = EmptyString ↔ blank s.
Proof.
  unfold trim. rewrite trimEnd_empty. split.
  - apply blank_trimStart.
  - intros H. apply trimStart_empty in H. rewrite H. constructor.
Qed.

Lemma append_String (c : ascii) (s t : string) :
  (String c s ++ t)%string = String c (s ++ t)%string.
Proof. reflexivity. Qed.

Lemma prefix_spec (p s : string) :
  String.prefix p s = true ↔ ∃ after, s = (p ++ after)%string.
Proof.
  revert s. induction p as [|c p IH]; intros s.
  - split; [intros _; now exists s|intros _; now destruct s].
  - destruct s as [|d s]; simpl;
      [split; [discriminate|intros [? ?]; discriminate]|].
    destruct (ascii_dec c d) as [->|Hne].
    + rewrite IH. split; intros [after H]; exists after;
        rewrite append_String in *; congruence.
    + split; [discriminate|]. intros [after H].
      rewrite append_String in H. congruence.
Qed.

(** [includes] finds exactly the substrings. *)
Lemma String_includes_spec (s t : string) :
  String_includes s t = true ↔ ∃ before after, s = (before ++ t ++ after)%string.
Proof.
  induction s as [|c s IH]; cbn [String_includes].
  - rewrite orb_false_r, prefix_spec. split.
    + intros [after H]. now exists EmptyString, after.
    + intros (before & after & H).
      destruct before; [now exists after|discriminate].
  - rewrite orb_true_iff, prefix_spec, IH. split.
    + intros [[after H]|(before & after & H)].
      * now exists EmptyString, after.
      * exists (String c before), after. rewrite append_String. now rewrite H.
    + intros (before & after & H). destruct before as [|d before].
      * left. now exists after.
      * right. exists before, after. rewrite append_String in H. congruence.
Qed.

Lemma contains_ci_includes (hobby q : string) :
  String_includes (toLowerCase hobby) (toLowerCase q) = true ↔ contains_ci hobby q.
Proof. apply String_includes_spec. Qed.

Lemma trimStart_decompose (s : string) :
  ∃ before, s = (before ++ trimStart s)%string ∧ blank before.
Proof.
  induction s as [|c s (before & Hs & Hb)]; simpl.
  - exists EmptyString. split; [reflexivity|constructor].
  - destruct (isWhiteSpace c) eqn:Hc.
    + exists (String c before). rewrite append_String, <- Hs.
      split; [reflexivity|]. now constructor.
    + exists EmptyString. split; [reflexivity|constructor].
Qed.

Lemma trimEnd_decompose (s : string) :
  ∃ after, s = (trimEnd s ++ after)%string ∧ blank after.
Proof.
  induction s as [|c s (after & Hs & Hb)]; simpl.
  - exists EmptyString. split; [reflexivity|constructor].
  - destruct (trimEnd s) as [|c' t] eqn:Ht.
    + destruct (isWhiteSpace c) eqn:Hc.
      * exists (String c s). split; [reflexivity|].
        constructor; [exact Hc|]. now apply trimEnd_empty.
      * exists after. rewrite append_String, <- Hs. split; [reflexivity|exact Hb].
    + exists after. rewrite append_String, <- Hs. split; [reflexivity|exact Hb].
Qed.

(** [trim] takes white space off both ends, and nothing else. *)
Lemma trim_decompose (s : string) :
  ∃ before after, s = (before ++ trim s ++ after)%string ∧ blank before ∧ blank after.
Proof.
  destruct (trimStart_decompose s) as (before & Hs & Hb).
  destruct (trimEnd_decompose (trimStart s)) as (after & Ht & Ha).
  exists before, after. unfold trim. rewrite <- Ht. auto.
Qed.

Lemma filter_sublist {A : Type} (p : A → bool) (l : list A) :
  sublist (List.filter p l) l.
Proof.
  induction l as [|x l IH]; simpl; [constructor|].
  destruct (p x); now constructor.
Qed.

(** C3, as the code has it. A query of white space only, or empty, yields
    the empty sequence; any other query yields exactly the names of the
    flattened list (pre-order of the forest sorted by score at every level)
    that contain the trimmed query without regard to case, in flattened
    order. *)
Theorem handleSearch_filter (data : list Hobby) (value : string) :
  let result := filteredHobbies (handleSearch data value) in
  let matches := fun hobby =>
    String_includes (toLowerCase hobby) (toLowerCase (trim value)) in
  searchTerm (handleSearch data value) = value ∧
  (blank value → result = []) ∧
  (¬ blank value → result = List.filter matches (flatten data)) ∧
  (∀ hobby, matches hobby = true ↔ contains_ci hobby (trim value)) ∧
  (¬ blank value →
     ∀ hobby, In hobby result ↔
              In hobby (flatten data) ∧ contains_ci hobby (trim value)) ∧
  sublist result (flatten data).
Proof.
  intros result matches.
  assert (Hres : result = if String.eqb (trim value) "" then []
                          else List.filter matches (flatten data)).
  { unfold result, handleSearch, flatten.
    destruct (String.eqb (trim value) ""); simpl; [reflexivity|].
    now rewrite getAllHobbies_preorder. }
  assert (Hblank : blank value ↔ String.eqb (trim value) "" = true).
  { now rewrite String.eqb_eq, trim_empty. }
  split; [|split; [|split; [|split; [|split]]]].
  - unfold handleSearch. now destruct (String.eqb (trim value) "").
  - intros Hb. apply Hblank in Hb. now rewrite Hres, Hb.
  - intros Hb. rewrite Hres. destruct (String.eqb (trim value) ""); [|reflexivity].
    exfalso. now apply Hb, Hblank.
  - intros hobby. apply contains_ci_includes.
  - intros Hb hobby. rewrite Hres.
    destruct (String.eqb (trim value) ""); [exfalso; now apply Hb, Hblank|].
    rewrite filter_In. unfold matches at 1. now rewrite contains_ci_includes.
  - rewrite Hres. destruct (String.eqb (trim value) "");
      [apply sublist_nil_l|apply filter_sublist].
Qed.

(** The sentence about search as it is written fails for a query with white space around it: [" mu "]
    is not white space only, "Music" is in the result, and "Music" does not
    contain [" mu "]. *)
Lemma handleSearch_untrimmed_counterexample :
  ¬ blank " mu " ∧
  In "Music"%string (filteredHobbies (handleSearch example_forest " mu ")) ∧
  ¬ contains_ci "Music" " mu ".
Proof.
  split; [|split].
  - rewrite <- trim_empty. vm_compute. discriminate.
  - vm_compute. now left.
  - rewrite <- contains_ci_includes. vm_compute. discriminate.
Qed.

(** ** The selection *)

Lemma Array_includes_spec (l : list string) (x : string) :
  Array_includes l x = true ↔ x ∈ l.
Proof.
  unfold Array_includes. rewrite existsb_exists, list_elem_of_In. split.
  - intros (y & Hy & Heq). apply String.eqb_eq in Heq. now subst.
  - intros Hx. exists x. split; [exact Hx|apply String.eqb_refl].
Qed.

(** [Array.prototype.filter] with a callback that decides [P]. *)
Lemma filter_decide {A : Type} (p : A → bool) (P : A → Prop)
    `{∀ x, Decision (P x)} (l : list A) :
  (∀ x, p x = true ↔ P x) → List.filter p l = filter P l.
Proof.
  intros Hp. induction l as [|x l IH]; simpl; [reflexivity|].
  rewrite filter_cons, IH. destruct (p x) eqn:Hx; case_decide; try reflexivity.
  - exfalso. apply Hp in Hx. contradiction.
  - exfalso. apply Hp in H0. congruence.
Qed.


(** ** Selection counts *)

Lemma getSelectedCount_fold (selectedHobbies : list string) (its : list Hobby)
    (acc : Counts) :
  fold_left
    (fun acc subHobby =>
       mkCounts (selected acc +
                   (if Array_includes selectedHobbies (name subHobby) then 1 else 0))
                (total acc + 1))
    its acc =
  mkCounts (selected acc +
              length (filter (λ subHobby, name subHobby ∈ selectedHobbies) its))
           (total acc + length its).
Proof.
  revert acc. induction its as [|x its IH]; intros [s t]; simpl.
  - f_equal; lia.
  - rewrite IH, filter_cons. simpl.
    destruct (Array_includes selectedHobbies (name x)) eqn:Hx; case_decide.
    + simpl. f_equal; lia.
    + apply Array_includes_spec in Hx. contradiction.
    + apply Array_includes_spec in H. congruence.
    + f_equal; lia.
Qed.

(** C7. The counts of a node range over its immediate children only:
    [total] is their number, [selected] the number of them whose name is in
    the selection; a node without [items] has the counts 0 and 0; and two
    nodes whose immediate children have the same names have the same counts,
    whatever lies below. *)
Theorem getSelectedCount_immediate (selectedHobbies : list string) (hobby : Hobby) :
  match items hobby with
  | None => getSelectedCount selectedHobbies hobby = mkCounts 0 0
  | Some its =>
      total (getSelectedCount selectedHobbies hobby) = length its ∧
      selected (getSelectedCount selectedHobbies hobby) =
        length (filter (λ subHobby, name subHobby ∈ selectedHobbies) its)
  end ∧
  ∀ hobby' : Hobby,
    map name <$> items hobby' = map name <$> items hobby →
    getSelectedCount selectedHobbies hobby' = getSelectedCount selectedHobbies hobby.
Proof.
  assert (Hc : ∀ h its, items h = Some its →
            getSelectedCount selectedHobbies h =
            mkCounts (length (filter (λ x, x ∈ selectedHobbies) (map name its)))
                     (length (map name its))).
  { intros h its Hits. unfold getSelectedCount. rewrite Hits.
    rewrite getSelectedCount_fold. simpl. rewrite length_map. f_equal.
    clear Hits. induction its as [|x its IH]; simpl; [reflexivity|].
    rewrite !filter_cons. case_decide; simpl; now rewrite IH. }
  split.
  - destruct (items hobby) as [its|] eqn:Hits.
    + unfold getSelectedCount. rewrite Hits, getSelectedCount_fold. simpl. auto.
    + unfold getSelectedCount. now rewrite Hits.
  - intros hobby' Hnames.
    destruct (items hobby) as [its|] eqn:Hits, (items hobby') as [its'|] eqn:Hits';
      try discriminate.
    + rewrite (Hc _ _ Hits), (Hc _ _ Hits'). simpl in Hnames. congruence.
    + unfold getSelectedCount. now rewrite Hits, Hits'.
Qed.

(** ** "Show more" *)

Lemma showMore_fold_count (keys : list string) (es : gmap string Z) (key : string) :
  (∀ k v, es !! k = Some v → 0 < v) →
  (∀ k v, fold_left (fun es k => showMore k es) keys es !! k = Some v → 0 < v) ∧
  visibleCountAt (fold_left (fun es k => showMore k es) keys es) key =
  visibleCountAt es key + 5 * Z.of_nat (length (filter (λ k, k = key) keys)).
Proof.
  revert es. induction keys as [|k0 keys IH]; intros es Hpos; simpl.
  - split; [exact Hpos|lia].
  - assert (Hor : ∀ k, 0 < orFive (es !! k)).
    { intros k. unfold orFive. destruct (es !! k) as [v|] eqn:Hk; [|lia].
      apply Hpos in Hk. destruct (Z.eqb_spec v 0); lia. }
    assert (Hpos' : ∀ k v, showMore k0 es !! k = Some v → 0 < v).
    { intros k v. unfold showMore. rewrite lookup_insert.
      case_decide; [|apply Hpos]. intros [= <-]. specialize (Hor k0). lia. }
    destruct (IH (showMore k0 es) Hpos') as [Hp Hv]. split; [exact Hp|].
    rewrite Hv, filter_cons. unfold visibleCountAt, showMore.
    rewrite lookup_insert. destruct (decide (k0 = key)) as [->|Hne];
      simpl length; [|lia].
    specialize (Hor key). unfold orFive at 1.
    destruct (Z.eqb_spec (orFive (es !! key) + 5) 0); lia.
Qed.


(** ** Loading the selection *)



(** ** The selection as a set *)

Lemma toggleHobby_present (hobby : string) (prev : list string) :
  hobby ∈ prev → toggleHobby hobby prev = filter (λ h, h ≠ hobby) prev.
Proof.
  intros Hin. unfold toggleHobby.
  rewrite (proj2 (Array_includes_spec prev hobby) Hin).
  apply filter_decide. intros x. rewrite negb_true_iff. apply String.eqb_neq.
Qed.

Lemma toggleHobby_absent (hobby : string) (prev : list string) :
  hobby ∉ prev → toggleHobby hobby prev = prev ++ [hobby].
Proof.
  intros Hin. unfold toggleHobby.
  destruct (Array_includes prev hobby) eqn:H; [|reflexivity].
  apply Array_includes_spec in H. contradiction.
Qed.

Lemma toggleHobby_NoDup (hobby : string) (prev : list string) :
  NoDup prev → NoDup (toggleHobby hobby prev).
Proof.
  intros Hnd. destruct (decide (hobby ∈ prev)) as [Hin|Hin].
  - rewrite toggleHobby_present by assumption. now apply NoDup_filter.
  - rewrite toggleHobby_absent by assumption.
    apply NoDup_app. split; [exact Hnd|]. split.
    + intros x Hx ->%list_elem_of_singleton. contradiction.
    + apply NoDup_singleton.
Qed.

Lemma selection_steps_NoDup (actions : list SelectionAction) (prev : list string) :
  NoDup prev → NoDup (fold_left selection_step actions prev).
Proof.
  revert prev. induction actions as [|a actions IH]; intros prev Hnd; [exact Hnd|].
  simpl. apply IH. destruct a; simpl.
  - now apply toggleHobby_NoDup.
  - apply NoDup_nil_2.
Qed.

(** C10. On a selection list without duplicates: toggling a name that is
    there removes it (the result is the list without that name, the other
    names in their order); toggling a name that is not there appends it
    once; clearing gives the empty list; and after any sequence of toggles
    and clears the list is still without duplicates. *)
Theorem selection_is_a_set (prev : list string) (hobby : string)
    (actions : list SelectionAction) :
  NoDup prev →
  (hobby ∈ prev →
     toggleHobby hobby prev = filter (λ h, h ≠ hobby) prev ∧
     hobby ∉ toggleHobby hobby prev) ∧
  (hobby ∉ prev →
     toggleHobby hobby prev = prev ++ [hobby] ∧
     length (filter (λ h, h = hobby) (toggleHobby hobby prev)) = 1%nat) ∧
  (∀ h, h ≠ hobby → h ∈ toggleHobby hobby prev ↔ h ∈ prev) ∧
  clearAllHobbies prev = [] ∧
  NoDup (toggleHobby hobby prev) ∧
  NoDup (clearAllHobbies prev) ∧
  NoDup (fold_left selection_step actions prev).
Proof.
  intros Hnd. split; [|split; [|split; [|split; [|split; [|split]]]]].
  - intros Hin. rewrite toggleHobby_present by assumption.
    split; [reflexivity|]. rewrite list_elem_of_filter. tauto.
  - intros Hin. rewrite toggleHobby_absent by assumption.
    split; [reflexivity|]. rewrite filter_app, length_app, filter_cons.
    case_decide; [|congruence]. simpl.
    replace (filter (λ h, h = hobby) prev) with (@nil string); [reflexivity|].
    clear Hnd. induction prev as [|x prev IH]; [reflexivity|].
    rewrite filter_cons. apply not_elem_of_cons in Hin as [Hx Hin].
    case_decide; [congruence|]. now apply IH.
  - intros h Hne. destruct (decide (hobby ∈ prev)) as [Hin|Hin].
    + rewrite toggleHobby_present by assumption. rewrite list_elem_of_filter. tauto.
    + rewrite toggleHobby_absent by assumption.
      rewrite elem_of_app, list_elem_of_singleton. tauto.
  - reflexivity.
  - now apply toggleHobby_NoDup.
  - apply NoDup_nil_2.
  - now apply selection_steps_NoDup.
Qed.

Lemma selection_is_a_set_witness :
  NoDup ["Piano"; "Sports"]%string ∧
  toggleHobby "Piano" ["Piano"; "Sports"]%string = ["Sports"]%string ∧
  NoDup (fold_left selection_step [Toggle "Guitar"; ClearAll; Toggle "Piano"]
                   ["Piano"; "Sports"]%string).
Proof.
  assert (Hnd : NoDup ["Piano"; "Sports"]%string).
  { repeat constructor; rewrite ?list_elem_of_In; simpl; intuition discriminate. }
  split; [exact Hnd|].
  destruct (selection_is_a_set ["Piano"; "Sports"]%string "Piano"
              [Toggle "Guitar"; ClearAll; Toggle "Piano"] Hnd)
    as (_ & _ & _ & _ & _ & _ & Hsteps).
  split; [vm_compute; reflexivity|exact Hsteps].
Defined.

(** * Further properties of the component *)

(** ** Sorting again *)

Lemma sort_insert_fmap {A B : Type} (c : A → A → Z) (c' : B → B → Z)
    (g : A → B) (x : A) (l : list A) :
  (∀ a b, c' (g a) (g b) = c a b) →
  sort_insert c' (g x) (map g l) = map g (sort_insert c x l).
Proof.
  intros Hg. induction l as [|y l IH]; simpl; [reflexivity|].
  rewrite Hg. destruct (c x y <=? 0); simpl; [reflexivity|]. now rewrite IH.
Qed.

(** Sorting commutes with a map the comparator does not see through. *)
Lemma Array_sort_fmap {A B : Type} (c : A → A → Z) (c' : B → B → Z)
    (g : A → B) (l : list A) :
  (∀ a b, c' (g a) (g b) = c a b) →
  Array_sort c' (map g l) = map g (Array_sort c l).
Proof.
  intros Hg. induction l as [|x l IH]; simpl; [reflexivity|].
  rewrite IH. now apply sort_insert_fmap.
Qed.

(** A level that is in descending order already is left as it is. *)
Lemma Array_sort_sorted (l : list Hobby) :
  StronglySorted descending l → Array_sort byScore l = l.
Proof.
  induction 1 as [|x l Hl IH Hx]; simpl; [reflexivity|].
  rewrite IH. destruct l as [|y l]; simpl; [reflexivity|].
  apply Forall_cons in Hx as [Hy _]. unfold descending in Hy.
  unfold byScore. destruct (Z.leb_spec (score y - score x) 0); [reflexivity|lia].
Qed.

Lemma withSortedItems_twice (hobby : Hobby) :
  (∀ its, items hobby = Some its → sortByScore (sortByScore its) = sortByScore its) →
  withSortedItems sortByScore (withSortedItems sortByScore hobby) =
  withSortedItems sortByScore hobby.
Proof.
  intros H. destruct hobby as [nm [its|] sc]; unfold withSortedItems; simpl;
    [|reflexivity].
  now rewrite H.
Qed.

Lemma sortByScore_twice_bounded (n : nat) (f : list Hobby) :
  (forest_depth f ≤ n)%nat → sortByScore (sortByScore f) = sortByScore f.
Proof.
  revert f. induction n as [|n IH]; intros f Hn.
  { unfold forest_depth in Hn. lia. }
  rewrite (sortByScore_eq f) at 1. rewrite sortByScore_eq.
  rewrite (Array_sort_fmap byScore byScore) by reflexivity.
  rewrite (Array_sort_sorted (Array_sort byScore f)) by apply Array_sort_descending.
  rewrite map_map, (sortByScore_eq f). apply map_ext_in. intros hobby Hin.
  apply withSortedItems_twice. intros its Hits. apply IH.
  apply Array_sort_In, depth_le_list_max in Hin. apply items_depth in Hits.
  unfold forest_depth in Hn. lia.
Qed.

Lemma sortByScore_twice (f : list Hobby) :
  sortByScore (sortByScore f) = sortByScore f.
Proof. apply (sortByScore_twice_bounded (forest_depth f)). lia. Qed.

Lemma sortByScore_items_sorted (f its : list Hobby) (hobby : Hobby) :
  In hobby (sortByScore f) → items hobby = Some its → sortByScore its = its.
Proof.
  rewrite sortByScore_eq. intros Hin Hits.
  apply in_map_iff in Hin as (h0 & <- & _).
  destruct h0 as [nm [its0|] sc]; unfold withSortedItems in Hits; simpl in Hits;
    [|discriminate].
  injection Hits as <-. apply sortByScore_twice.
Qed.

(** X1. Sorting a sorted forest changes nothing, at the top level and for
    the items of every node of the result: the component may sort again what
    it has sorted, as it does each time it renders a list. *)
Theorem sortByScore_idempotent (f : list Hobby) :
  sortByScore (sortByScore f) = sortByScore f ∧
  ∀ hobby its, In hobby (sortByScore f) → items hobby = Some its →
               sortByScore its = its.
Proof.
  split; [apply sortByScore_twice|].
  intros hobby its. apply sortByScore_items_sorted.
Qed.

(** ** Sorting keeps the names *)

Lemma Permutation_concat_map {A B : Type} (F G : A → list B) (l : list A) :
  (∀ x, In x l → Permutation (F x) (G x)) →
  Permutation (concat (map F l)) (concat (map G l)).
Proof.
  induction l as [|x l IH]; simpl; intros H; [reflexivity|].
  apply Permutation_app; [apply H; now left|].
  apply IH. intros y Hy. apply H. now right.
Qed.

Lemma Permutation_concat_perm {A B : Type} (F : A → list B) (l l' : list A) :
  Permutation l l' → Permutation (concat (map F l)) (concat (map F l')).
Proof.
  induction 1 as [|x l l' _ IH|x y l|l l' l'' _ IH1 _ IH2]; simpl.
  - reflexivity.
  - now apply Permutation_app_head.
  - rewrite !app_assoc. apply Permutation_app_tail, Permutation_app_comm.
  - etransitivity; eassumption.
Qed.

Lemma preorder_eq (hobby : Hobby) :
  preorder hobby =
  name hobby :: match items hobby with
                | Some its => preorder_forest its
                | None => []
                end.
Proof. destruct hobby as [nm [its|] sc]; reflexivity. Qed.

Lemma flatten_Permutation_bounded (n : nat) (f : list Hobby) :
  (forest_depth f ≤ n)%nat → Permutation (flatten f) (preorder_forest f).
Proof.
  revert f. induction n as [|n IH]; intros f Hn.
  { unfold forest_depth in Hn. lia. }
  unfold flatten, preorder_forest at 1. rewrite sortByScore_eq, map_map.
  etransitivity; [|apply Permutation_concat_perm, Permutation_sym,
                    Array_sort_Permutation].
  apply Permutation_concat_map. intros hobby Hin.
  rewrite !preorder_eq. simpl. apply perm_skip.
  destruct (items hobby) as [its|] eqn:Hits; simpl; [|reflexivity].
  apply IH. apply Array_sort_In, depth_le_list_max in Hin.
  apply items_depth in Hits. unfold forest_depth in Hn. lia.
Qed.

Lemma flatten_perm (f : list Hobby) : Permutation (flatten f) (preorder_forest f).
Proof. apply (flatten_Permutation_bounded (forest_depth f)). lia. Qed.

Lemma flatten_elem (f : list Hobby) (x : string) :
  x ∈ flatten f ↔ x ∈ preorder_forest f.
Proof.
  rewrite !list_elem_of_In. split; apply Permutation_in;
    [|symmetry]; apply flatten_perm.
Qed.

(** X2. The flattened list is a rearrangement of the names of the forest:
    sorting drops no node and repeats none, at any depth; so a name is found
    by the search index exactly when the forest has it, and as often. *)
Theorem flatten_Permutation (f : list Hobby) :
  Permutation (flatten f) (preorder_forest f) ∧
  length (flatten f) = length (preorder_forest f) ∧
  ∀ x, x ∈ flatten f ↔ x ∈ preorder_forest f.
Proof.
  split; [apply flatten_perm|]. split; [|apply flatten_elem].
  apply Permutation_length, flatten_perm.
Qed.

(** ** Search: a longer query narrows the result *)

Lemma append_assoc (a b c : string) : ((a ++ b) ++ c)%string = (a ++ b ++ c)%string.
Proof.
  induction a as [|x a IH]; [reflexivity|].
  rewrite !append_String. now rewrite IH.
Qed.

Lemma String_includes_trans (s t u : string) :
  String_includes s t = true → String_includes t u = true →
  String_includes s u = true.
Proof.
  rewrite !String_includes_spec.
  intros (b1 & a1 & ->) (b2 & a2 & ->).
  exists (b1 ++ b2)%string, (a2 ++ a1)%string.
  now rewrite !append_assoc.
Qed.

Lemma filter_sublist_impl {A : Type} (p q : A → bool) (l : list A) :
  (∀ x, p x = true → q x = true) →
  sublist (List.filter p l) (List.filter q l).
Proof.
  intros Hpq. induction l as [|x l IH]; simpl; [constructor|].
  destruct (p x) eqn:Hp.
  - rewrite (Hpq x Hp). now constructor.
  - destruct (q x); [now constructor|exact IH].
Qed.

Lemma handleSearch_filtered (data : list Hobby) (value : string) :
  filteredHobbies (handleSearch data value) =
  if String.eqb (trim value) "" then []
  else List.filter
         (fun hobby => String_includes (toLowerCase hobby) (toLowerCase (trim value)))
         (flatten data).
Proof.
  unfold handleSearch, flatten. destruct (String.eqb (trim value) ""); simpl;
    [reflexivity|].
  now rewrite getAllHobbies_preorder.
Qed.

(** X3. When the trimmed query of one search contains, without regard to
    case, the trimmed query of another that is not blank, every result of
    the first is a result of the second, in the same order: typing more
    never adds a result. The blank query is the exception the hypothesis
    excludes: every name contains it, and it yields nothing. *)
Theorem handleSearch_narrows (data : list Hobby) (shorter longer : string) :
  ¬ blank shorter →
  contains_ci (trim longer) (trim shorter) →
  sublist (filteredHobbies (handleSearch data longer))
          (filteredHobbies (handleSearch data shorter)).
Proof.
  intros Hblank Hcontains. rewrite !handleSearch_filtered.
  destruct (String.eqb_spec (trim shorter) "") as [He|_].
  { exfalso. now apply Hblank, trim_empty. }
  destruct (String.eqb (trim longer) ""); [apply sublist_nil_l|].
  apply filter_sublist_impl. intros hobby Hl.
  eapply String_includes_trans; [exact Hl|]. now apply contains_ci_includes.
Qed.

Lemma handleSearch_narrows_witness :
  ¬ blank "mu" ∧ contains_ci (trim " Mus ") (trim "mu") ∧
  sublist (filteredHobbies (handleSearch example_forest " Mus "))
          (filteredHobbies (handleSearch example_forest "mu")).
Proof.
  assert (Hb : ¬ blank "mu") by (rewrite <- trim_empty; vm_compute; discriminate).
  assert (Hc : contains_ci (trim " Mus ") (trim "mu"))
    by (apply contains_ci_includes; vm_compute; reflexivity).
  split; [exact Hb|]. split; [exact Hc|].
  exact (handleSearch_narrows example_forest "mu" " Mus " Hb Hc).
Defined.

(** ** Toggling *)

Lemma toggleHobby_elem (hobby : string) (prev : list string) (h : string) :
  h ∈ toggleHobby hobby prev ↔ (h ≠ hobby ∧ h ∈ prev) ∨ (h = hobby ∧ hobby ∉ prev).
Proof.
  destruct (decide (hobby ∈ prev)) as [Hin|Hin].
  - rewrite toggleHobby_present by assumption. rewrite list_elem_of_filter.
    split; [tauto|]. intros [?|[_ ?]]; [tauto|contradiction].
  - rewrite toggleHobby_absent by assumption.
    rewrite elem_of_app, list_elem_of_singleton. split.
    + intros [H|H]; [left; split; [|exact H]; intros ->; contradiction|tauto].
    + tauto.
Qed.

(** X4. Whatever the selection list (with or without repetitions), a toggle
    flips whether the name is selected and touches no other name; two toggles
    of a name select exactly the names selected before, and leave the ordered
    selection the page shows as it was. *)
Theorem toggleHobby_twice (data : list Hobby) (prev : list string) (hobby : string) :
  (hobby ∈ toggleHobby hobby prev ↔ hobby ∉ prev) ∧
  (∀ h, h ≠ hobby → h ∈ toggleHobby hobby prev ↔ h ∈ prev) ∧
  (∀ h, h ∈ toggleHobby hobby (toggleHobby hobby prev) ↔ h ∈ prev) ∧
  orderedSelectedHobbies data (toggleHobby hobby (toggleHobby hobby prev)) =
  orderedSelectedHobbies data prev.
Proof.
  assert (Htwice : ∀ h, h ∈ toggleHobby hobby (toggleHobby hobby prev) ↔ h ∈ prev).
  { intros h. rewrite !toggleHobby_elem.
    destruct (decide (h = hobby)) as [->|Hne], (decide (hobby ∈ prev));
      split; tauto. }
  split; [|split; [|split]].
  - rewrite toggleHobby_elem. tauto.
  - intros h Hne. rewrite toggleHobby_elem. tauto.
  - exact Htwice.
  - unfold orderedSelectedHobbies.
    apply (filter_ext_in_iff). intros x _.
    apply eq_true_iff_eq. rewrite !Array_includes_spec. apply Htwice.
Qed.

(** ** Counts and toggles *)

Lemma getSelectedCount_items (selectedHobbies : list string) (hobby : Hobby)
    (its : list Hobby) :
  items hobby = Some its →
  getSelectedCount selectedHobbies hobby =
  mkCounts (length (filter (λ subHobby, name subHobby ∈ selectedHobbies) its))
           (length its).
Proof.
  intros Hits. unfold getSelectedCount. rewrite Hits.
  now rewrite getSelectedCount_fold.
Qed.

Lemma filter_agree {A : Type} (P Q : A → Prop) `{∀ x, Decision (P x)}
    `{∀ x, Decision (Q x)} (l : list A) :
  (∀ x, In x l → (P x ↔ Q x)) → filter P l = filter Q l.
Proof.
  induction l as [|x l IH]; intros Hl; [reflexivity|].
  rewrite !filter_cons, IH by (intros y Hy; apply Hl; now right).
  assert (Hx : P x ↔ Q x) by (apply Hl; now left).
  repeat case_decide; tauto.
Qed.

(** The number of children a selection selects, when one name is added to
    the selection. *)
Lemma count_names_add (sel sel' : list string) (x : string) (its : list Hobby) :
  NoDup (map name its) → x ∈ map name its →
  x ∉ sel → (∀ y, y ∈ sel' ↔ y ∈ sel ∨ y = x) →
  length (filter (λ subHobby, name subHobby ∈ sel') its) =
  S (length (filter (λ subHobby, name subHobby ∈ sel) its)).
Proof.
  intros Hnd Hx HPx HQ. induction its as [|h its IH]; [inversion Hx|].
  simpl in Hnd, Hx. apply NoDup_cons in Hnd as [Hh Hnd].
  rewrite !filter_cons. destruct (decide (name h = x)) as [Heq|Hne].
  - rewrite decide_True by (apply HQ; now right).
    rewrite decide_False by (rewrite Heq; exact HPx).
    simpl. f_equal. f_equal. apply filter_agree.
    intros y Hy. rewrite HQ. split; [|tauto].
    intros [HP|Hyx]; [exact HP|]. exfalso. apply Hh. rewrite Heq, <- Hyx.
    apply list_elem_of_In. now apply in_map.
  - apply elem_of_cons in Hx as [Hx|Hx]; [congruence|].
    specialize (IH Hnd Hx).
    destruct (decide (name h ∈ sel)) as [HP|HP].
    + rewrite decide_True by (apply HQ; now left). simpl. now rewrite IH.
    + rewrite decide_False by (rewrite HQ; tauto). exact IH.
Qed.

Lemma count_names_same (sel sel' : list string) (its : list Hobby) :
  (∀ y, y ∈ map name its → (y ∈ sel' ↔ y ∈ sel)) →
  filter (λ subHobby, name subHobby ∈ sel') its =
  filter (λ subHobby, name subHobby ∈ sel) its.
Proof.
  intros HQ. apply filter_agree. intros h Hh.
  apply HQ. apply list_elem_of_In. now apply in_map.
Qed.

(** X5. For a node whose children have distinct names, toggling the name
    of a child changes the [selected] count of the node by exactly one (up
    when the name was not selected, down when it was) and leaves [total];
    toggling any other name leaves both counts as they are. *)
Theorem getSelectedCount_toggle (selectedHobbies : list string) (hobby : Hobby)
    (its : list Hobby) (toggled : string) :
  items hobby = Some its → NoDup (map name its) →
  let before := getSelectedCount selectedHobbies hobby in
  let after := getSelectedCount (toggleHobby toggled selectedHobbies) hobby in
  total after = total before ∧
  (toggled ∈ map name its → toggled ∉ selectedHobbies →
     selected after = S (selected before)) ∧
  (toggled ∈ map name its → toggled ∈ selectedHobbies →
     S (selected after) = selected before) ∧
  (toggled ∉ map name its → selected after = selected before).
Proof.
  intros Hits Hnd before after. unfold before, after.
  rewrite !(getSelectedCount_items _ _ _ Hits). simpl.
  split; [reflexivity|]. split; [|split].
  - intros Hchild Hnew.
    apply (count_names_add selectedHobbies
             (toggleHobby toggled selectedHobbies) toggled); try assumption.
    intros y. rewrite toggleHobby_elem.
    destruct (decide (y = toggled)) as [->|]; tauto.
  - intros Hchild Hold. symmetry.
    apply (count_names_add (toggleHobby toggled selectedHobbies)
             selectedHobbies toggled); try assumption.
    + rewrite toggleHobby_elem. tauto.
    + intros y. rewrite toggleHobby_elem.
      destruct (decide (y = toggled)) as [->|]; tauto.
  - intros Hother. f_equal.
    apply (count_names_same selectedHobbies
             (toggleHobby toggled selectedHobbies)).
    intros y Hy. rewrite toggleHobby_elem.
    assert (y ≠ toggled) by (intros ->; contradiction). tauto.
Qed.

Lemma getSelectedCount_toggle_witness :
  let music := mkHobby "Music" (Some [mkHobby "Guitar" None 5; mkHobby "Piano" None 8]) 10 in
  NoDup ["Guitar"; "Piano"]%string ∧
  selected (getSelectedCount (toggleHobby "Piano" []) music) = 1%nat.
Proof.
  intros music.
  assert (Hnd : NoDup ["Guitar"; "Piano"]%string).
  { repeat constructor; rewrite ?list_elem_of_In; simpl; intuition discriminate. }
  split; [exact Hnd|].
  destruct (getSelectedCount_toggle [] music
              [mkHobby "Guitar" None 5; mkHobby "Piano" None 8] "Piano"
              eq_refl Hnd) as (_ & Hup & _).
  rewrite Hup; [reflexivity| |].
  - apply list_elem_of_In. simpl. tauto.
  - apply not_elem_of_nil.
Defined.

(** ** The ordered selection when names are distinct *)

Lemma filter_filter_Permutation (l sel : list string) :
  NoDup l → NoDup sel →
  Permutation (filter (λ x, x ∈ sel) l) (filter (λ x, x ∈ l) sel).
Proof.
  intros Hl Hsel. apply NoDup_Permutation.
  - now apply NoDup_filter.
  - now apply NoDup_filter.
  - intros x. rewrite !list_elem_of_filter. tauto.
Qed.

(** X6. When the names of the taxonomy are distinct and the selection list
    has no repetition, the ordered selection has no repetition and is a
    rearrangement of the selected names that are names of the taxonomy; a
    selected name the taxonomy does not have is not shown, and nothing is
    shown exactly when no selected name is in the taxonomy. *)
Theorem orderedSelectedHobbies_distinct (data : list Hobby)
    (selectedHobbies : list string) :
  NoDup (preorder_forest data) → NoDup selectedHobbies →
  NoDup (orderedSelectedHobbies data selectedHobbies) ∧
  Permutation (orderedSelectedHobbies data selectedHobbies)
              (filter (λ hobby, hobby ∈ preorder_forest data) selectedHobbies) ∧
  (∀ hobby, hobby ∈ orderedSelectedHobbies data selectedHobbies ↔
            hobby ∈ selectedHobbies ∧ hobby ∈ preorder_forest data) ∧
  (orderedSelectedHobbies data selectedHobbies = [] ↔
   ∀ hobby, hobby ∈ selectedHobbies → hobby ∉ preorder_forest data).
Proof.
  intros Hdata Hsel.
  assert (Heq : orderedSelectedHobbies data selectedHobbies =
            filter (λ hobby, hobby ∈ selectedHobbies) (flatten data)).
  { unfold orderedSelectedHobbies. rewrite getAllHobbiesInOrder_flatten.
    apply filter_decide. intros x. apply Array_includes_spec. }
  assert (Hflat : NoDup (flatten data)).
  { apply NoDup_ListNoDup. eapply Permutation_NoDup;
      [apply Permutation_sym, flatten_perm|now apply NoDup_ListNoDup]. }
  assert (Hmem : ∀ hobby, hobby ∈ flatten data ↔ hobby ∈ preorder_forest data)
    by apply flatten_elem.
  assert (Hin : ∀ hobby, hobby ∈ orderedSelectedHobbies data selectedHobbies ↔
                  hobby ∈ selectedHobbies ∧ hobby ∈ preorder_forest data).
  { intros hobby. rewrite Heq, list_elem_of_filter, Hmem. tauto. }
  split; [|split; [|split]].
  - rewrite Heq. now apply NoDup_filter.
  - rewrite Heq. etransitivity; [now apply filter_filter_Permutation|].
    erewrite list_filter_iff; [reflexivity|]. exact Hmem.
  - exact Hin.
  - split.
    + intros Hnil hobby Hs Hd.
      assert (H : hobby ∈ orderedSelectedHobbies data selectedHobbies)
        by (apply Hin; tauto).
      rewrite Hnil in H. now apply not_elem_of_nil in H.
    + intros Hnone.
      destruct (orderedSelectedHobbies data selectedHobbies) as [|x l] eqn:E;
        [reflexivity|].
      exfalso. assert (H : x ∈ x :: l) by apply list_elem_of_here.
      apply Hin in H as [Hs Hd]. exact (Hnone x Hs Hd).
Qed.

Lemma orderedSelectedHobbies_distinct_witness :
  NoDup (preorder_forest example_forest) ∧ NoDup ["Sports"; "Chess"; "Piano"]%string ∧
  Permutation (orderedSelectedHobbies example_forest ["Sports"; "Chess"; "Piano"]%string)
              ["Sports"; "Piano"]%string.
Proof.
  assert (Hd : NoDup (preorder_forest example_forest)).
  { vm_compute. repeat constructor; rewrite ?list_elem_of_In; simpl;
      intuition discriminate. }
  assert (Hs : NoDup ["Sports"; "Chess"; "Piano"]%string).
  { repeat constructor; rewrite ?list_elem_of_In; simpl; intuition discriminate. }
  split; [exact Hd|]. split; [exact Hs|].
  destruct (orderedSelectedHobbies_distinct example_forest
              ["Sports"; "Chess"; "Piano"]%string Hd Hs) as (_ & Hperm & _).
  etransitivity; [exact Hperm|]. vm_compute. reflexivity.
Defined.

(** ** Colours: always well formed *)

Lemma validColor_hexColor (r g b : Z) :
  validColor (hexColor (clamp8 r) (clamp8 g) (clamp8 b)).
Proof.
  split; [reflexivity|].
  exists (clamp8 r), (clamp8 g), (clamp8 b).
  rewrite channels_hexColor, !(proj2 (hex2_channel _ (clamp8_range _))).
  split; [reflexivity|]. repeat split; apply clamp8_range.
Qed.

Lemma validColor_baseColors (index : nat) (color : string) :
  baseColors !! index = Some color → validColor color.
Proof.
  intros Hc. apply lookup_lt_Some in Hc as Hlt. simpl in Hlt.
  do 10 (destruct index as [|index];
         [injection Hc as <-; split; [reflexivity|];
          eexists _, _, _; split; [vm_compute; reflexivity|lia]|]).
  lia.
Qed.

Lemma generateSimilarColor_valid (Math_random : nat → Q) (index calls : nat) :
  validColor (generateSimilarColor Math_random index calls).1 ∧
  (generateSimilarColor Math_random index calls).2 = S (S (S calls)).
Proof.
  destruct (baseColors_channels (index mod 10)%nat)
    as (seed & r & g & b & Hseed & Hch & _).
  { apply Nat.mod_upper_bound. discriminate. }
  rewrite (generateSimilarColor_eq _ _ _ seed r g b Hseed Hch). simpl.
  split; [apply validColor_hexColor|reflexivity].
Qed.

Lemma getCategoryColor_validColors (Math_random : nat → Q)
    (categoryName : string) (index : nat) (st : ColorState) :
  validColors st →
  validColors (getCategoryColor Math_random categoryName index st).2.
Proof.
  intros Hst k c. unfold getCategoryColor. cbn [snd].
  destruct (categoryColorsMap st !! categoryName) as [c0|] eqn:Hn; [apply Hst|].
  destruct (Nat.ltb_spec index (length baseColors)) as [Hlt|Hge].
  - cbn [categoryColorsMap]. rewrite lookup_insert. case_decide; [|apply Hst].
    intros [= <-]. destruct (lookup_lt_is_Some_2 baseColors index Hlt) as [c' Hc'].
    rewrite Hc'. simpl. eapply validColor_baseColors; eassumption.
  - destruct (generateSimilarColor Math_random index (randomCalls st))
      as [color calls] eqn:Hg.
    cbn [categoryColorsMap]. rewrite lookup_insert. case_decide; [|apply Hst].
    intros [= <-].
    pose proof (generateSimilarColor_valid Math_random index (randomCalls st)) as [Hv _].
    now rewrite Hg in Hv.
Qed.

Lemma getCategoryColor_calls_validColors (Math_random : nat → Q)
    (calls : list (string * nat)) (st : ColorState) :
  validColors st → validColors (getCategoryColor_calls Math_random calls st).
Proof.
  revert st. induction calls as [|[n i] calls IH]; intros st Hst; [exact Hst|].
  simpl. apply IH. now apply getCategoryColor_validColors.
Qed.

Lemma forEach_from_validColors (Math_random : nat → Q) (l : list Hobby)
    (k : nat) (st : ColorState) :
  validColors st →
  validColors
    (forEach_from
       (fun hobby index st => snd (getCategoryColor Math_random (name hobby) index st))
       l k st).
Proof.
  revert k st. induction l as [|x l IH]; intros k st Hst; [exact Hst|].
  simpl. apply IH. now apply getCategoryColor_validColors.
Qed.


(** ** Colours by rank, past the palette *)

Lemma getCategoryColor_new_rank (Math_random : nat → Q) (categoryName : string)
    (index : nat) (st : ColorState) :
  categoryColorsMap st !! categoryName = None →
  randomCalls st = (3 * (index - length baseColors))%nat →
  categoryColorsMap (getCategoryColor Math_random categoryName index st).2 =
    <[categoryName := rankColor Math_random index]> (categoryColorsMap st) ∧
  randomCalls (getCategoryColor Math_random categoryName index st).2 =
    (3 * (S index - length baseColors))%nat.
Proof.
  intros Hnew Hcalls. unfold getCategoryColor, rankColor. cbn [snd]. rewrite Hnew.
  destruct (Nat.ltb_spec index (length baseColors)) as [Hlt|Hge].
  - cbn [categoryColorsMap randomCalls]. split; [reflexivity|]. lia.
  - rewrite Hcalls.
    pose proof (generateSimilarColor_valid Math_random index
                  (3 * (index - length baseColors))) as [_ Hc].
    destruct (generateSimilarColor Math_random index
                (3 * (index - length baseColors))) as [color calls].
    cbn [categoryColorsMap randomCalls fst snd] in *. split; [reflexivity|].
    rewrite Hc. change (length baseColors) with 10%nat in *. lia.
Qed.

Lemma forEach_from_rank (Math_random : nat → Q) (l : list Hobby) (k : nat)
    (st : ColorState) :
  NoDup (map name l) →
  (∀ hobby, In hobby l → categoryColorsMap st !! name hobby = None) →
  randomCalls st = (3 * (k - length baseColors))%nat →
  let st' :=
    forEach_from
      (fun hobby index st => snd (getCategoryColor Math_random (name hobby) index st))
      l k st in
  (∀ j hobby, l !! j = Some hobby →
     categoryColorsMap st' !! name hobby = Some (rankColor Math_random (k + j))) ∧
  randomCalls st' = (3 * (k + length l - length baseColors))%nat.
Proof.
  revert k st. induction l as [|x l IH]; intros k st Hnd Hnew Hcalls st'.
  { split; [discriminate|]. unfold st'. cbn [forEach_from length].
    now rewrite Hcalls, Nat.add_0_r. }
  simpl in Hnd. apply NoDup_cons in Hnd as [Hx Hnd].
  destruct (getCategoryColor_new_rank Math_random (name x) k st) as [Hmap Hc];
    [apply Hnew; now left|exact Hcalls|].
  destruct (IH (S k) (getCategoryColor Math_random (name x) k st).2) as [Hl Hcl];
    [exact Hnd| |exact Hc|].
  { intros hobby Hin. rewrite Hmap, lookup_insert_ne; [apply Hnew; now right|].
    intros Heq. apply Hx. rewrite Heq. apply list_elem_of_In. now apply in_map. }
  split.
  - intros [|j] hobby Hj; simpl in Hj.
    + injection Hj as <-. rewrite Nat.add_0_r. unfold st'. cbn [forEach_from].
      apply (forEach_assign_keeps Math_random). rewrite Hmap.
      apply lookup_insert_eq.
    + replace (k + S j)%nat with (S k + j)%nat by lia. now apply Hl.
  - unfold st'. cbn [forEach_from length].
    replace (k + S (length l))%nat with (S k + length l)%nat by lia.
    exact Hcl.
Qed.

Lemma initializeCategoryColors_rank (Math_random : nat → Q) (data : list Hobby) :
  NoDup (map name data) →
  let st := initializeCategoryColors Math_random data initialColorState in
  (∀ i hobby, sortByScore data !! i = Some hobby →
     categoryColorsMap st !! name hobby = Some (rankColor Math_random i)) ∧
  randomCalls st = (3 * (length data - 10))%nat.
Proof.
  intros Hnd st.
  destruct (forEach_from_rank Math_random (sortByScore data) 0 initialColorState)
    as [Hrank Hcalls].
  - rewrite name_sortByScore. apply NoDup_ListNoDup.
    eapply Permutation_NoDup; [|apply NoDup_ListNoDup; exact Hnd].
    apply Permutation_map, Array_sort_Permutation.
  - intros hobby _. apply lookup_empty.
  - reflexivity.
  - split; [exact Hrank|].
    unfold st, initializeCategoryColors, Array_forEach.
    rewrite Hcalls, length_sortByScore. reflexivity.
Qed.

(** X8. When the top-level names are distinct, whatever their number: after
    initialisation the category of rank [i] in the sorted top level has the
    palette colour [baseColors[i]] when [i] is below 10, and past that the
    colour synthesised at index [i] from the draws [3(i-10)], [3(i-10)+1] and
    [3(i-10)+2]; and [Math.random] has been called three times for each
    category past the tenth. *)
Theorem initializeCategoryColors_by_rank (Math_random : nat → Q)
    (data : list Hobby) :
  NoDup (map name data) →
  let st := initializeCategoryColors Math_random data initialColorState in
  (∀ i hobby, sortByScore data !! i = Some hobby →
     categoryColorsMap st !! name hobby = Some (rankColor Math_random i)) ∧
  (∀ i, (i < 10)%nat → baseColors !! i = Some (rankColor Math_random i)) ∧
  (∀ i, (10 ≤ i)%nat →
     rankColor Math_random i =
     (generateSimilarColor Math_random i (3 * (i - 10))).1) ∧
  randomCalls st = (3 * (length data - 10))%nat.
Proof.
  intros Hnd st.
  destruct (initializeCategoryColors_rank Math_random data Hnd) as [Hrank Hcalls].
  split; [exact Hrank|]. split; [|split; [|exact Hcalls]].
  - intros i Hi. unfold rankColor.
    destruct (Nat.ltb_spec i (length baseColors)) as [_|Hge]; [|simpl in Hge; lia].
    destruct (lookup_lt_is_Some_2 baseColors i) as [c Hc]; [simpl; lia|].
    now rewrite Hc.
  - intros i Hi. unfold rankColor.
    destruct (Nat.ltb_spec i (length baseColors)) as [Hlt|_]; [simpl in Hlt; lia|].
    reflexivity.
Qed.

Lemma initializeCategoryColors_by_rank_witness :
  NoDup (map name eleven_categories) ∧
  randomCalls (initializeCategoryColors (fun _ => 1 # 2) eleven_categories
                 initialColorState) = 3%nat ∧
  categoryColorsMap (initializeCategoryColors (fun _ => 1 # 2) eleven_categories
                       initialColorState) !! "k"%string = Some "#ffd5d5"%string.
Proof.
  assert (Hnd : NoDup (map name eleven_categories)).
  { apply (bool_decide_unpack _). vm_compute. exact I. }
  split; [exact Hnd|].
  destruct (initializeCategoryColors_by_rank (fun _ => 1 # 2) eleven_categories Hnd)
    as (Hrank & _ & _ & Hcalls).
  split; [exact Hcalls|].
  etransitivity;
    [exact (Hrank 10%nat (mkHobby "k" None 0) ltac:(vm_compute; reflexivity))|].
  vm_compute. reflexivity.
Defined.

(** ** The colour of a node *)

Lemma first_return_Some {A B : Type} (body : A → option B) (l : list A) (b : B) :
  first_return body l = Some b → ∃ x, In x l ∧ body x = Some b.
Proof.
  induction l as [|x l IH]; simpl; [discriminate|].
  destruct (body x) as [b'|] eqn:Hx.
  - intros [= <-]. exists x. auto.
  - intros H. destruct (IH H) as (y & Hy & Hb). exists y. auto.
Qed.

Lemma first_return_None {A B : Type} (body : A → option B) (l : list A) :
  (∀ x, In x l → body x = None) → first_return body l = None.
Proof.
  induction l as [|x l IH]; simpl; intros H; [reflexivity|].
  rewrite (H x) by now left. apply IH. intros y Hy. apply H. now right.
Qed.

(** The first element the body returns at, with nothing returned before. *)
Lemma first_return_at {A B : Type} (body : A → option B) (l : list A)
    (i : nat) (x : A) (b : B) :
  l !! i = Some x → body x = Some b →
  (∀ j y, (j < i)%nat → l !! j = Some y → body y = None) →
  first_return body l = Some b.
Proof.
  revert i. induction l as [|z l IH]; intros i Hi Hb Hbefore; [discriminate|].
  destruct i as [|i]; simpl in *.
  - injection Hi as ->. now rewrite Hb.
  - rewrite (Hbefore 0%nat z) by (simpl; auto with lia).
    apply (IH i Hi Hb). intros j y Hj Hy. apply (Hbefore (S j) y); [lia|exact Hy].
Qed.

Lemma preorder_forest_elem (f : list Hobby) (x : string) :
  x ∈ preorder_forest f ↔ ∃ hobby, In hobby f ∧ x ∈ preorder hobby.
Proof.
  unfold preorder_forest. rewrite list_elem_of_In, in_concat. split.
  - intros (l & Hl & Hx). apply in_map_iff in Hl as (hobby & <- & Hh).
    exists hobby. split; [exact Hh|now apply list_elem_of_In].
  - intros (hobby & Hh & Hx). exists (preorder hobby). split.
    + now apply in_map.
    + now apply list_elem_of_In.
Qed.

Lemma preorder_elem (hobby : Hobby) (x : string) :
  x ∈ preorder hobby ↔
  x = name hobby ∨ ∃ its, items hobby = Some its ∧ x ∈ preorder_forest its.
Proof.
  rewrite preorder_eq, elem_of_cons.
  destruct (items hobby) as [its|].
  - split; (intros [H|H]; [now left|right]).
    + now exists its.
    + destruct H as (its' & [= <-] & Hx). exact Hx.
  - split; (intros [H|H]; [now left|]).
    + now apply not_elem_of_nil in H.
    + destruct H as (its' & [=] & _).
Qed.

(** What the loop body returns is the name of the node, and only for a node
    that has the target at or below it. *)
Lemma findCategory_body_sound (target : string) (hobby : Hobby) (c : string) :
  findCategory_body target hobby = Some c →
  c = name hobby ∧ target ∈ preorder hobby.
Proof.
  revert c. induction hobby as [nm sc|nm its sc IH] using Hobby_forest_ind;
    intros c; simpl.
  - destruct (String.eqb_spec nm target) as [->|_]; [|discriminate].
    intros [= <-]. split; [reflexivity|apply list_elem_of_here].
  - destruct (String.eqb_spec nm target) as [->|_].
    { intros [= <-]. split; [reflexivity|apply list_elem_of_here]. }
    destruct (first_return (findCategory_body target) its) as [found|] eqn:Hf;
      [|discriminate].
    simpl. destruct (negb (String.eqb found "")); [|discriminate].
    intros [= <-]. split; [reflexivity|].
    apply first_return_Some in Hf as (child & Hchild & Hbody).
    rewrite List.Forall_forall in IH. apply (IH child Hchild) in Hbody as [_ Hin].
    apply elem_of_cons. right.
    change (target ∈ preorder_forest its). apply preorder_forest_elem. eauto.
Qed.

(** With no empty name at or below a node, the loop body returns exactly at
    the nodes that have the target at or below them. *)
Lemma findCategory_body_complete (target : string) (hobby : Hobby) :
  Forall (λ n, n ≠ ""%string) (preorder hobby) →
  target ∈ preorder hobby →
  findCategory_body target hobby = Some (name hobby).
Proof.
  induction hobby as [nm sc|nm its sc IH] using Hobby_forest_ind; simpl.
  - intros _ Hin. apply elem_of_cons in Hin as [->|Hin].
    + now rewrite String.eqb_refl.
    + now apply not_elem_of_nil in Hin.
  - intros Hne Hin. destruct (String.eqb_spec nm target) as [_|Hneq]; [reflexivity|].
    apply Forall_cons in Hne as [_ Hne].
    apply elem_of_cons in Hin as [->|Hin]; [congruence|].
    change (target ∈ preorder_forest its) in Hin.
    change (Forall (λ n, n ≠ ""%string) (preorder_forest its)) in Hne.
    assert (Hfound : ∃ c, first_return (findCategory_body target) its = Some c ∧
                          c ≠ ""%string).
    { clear Hneq. induction its as [|child its IHits]; [now apply not_elem_of_nil in Hin|].
      unfold preorder_forest in Hne, Hin. simpl in Hne, Hin.
      apply Forall_app in Hne as [Hchild Hrest].
      apply Forall_cons in IH as [IHchild IHrest].
      simpl. destruct (findCategory_body target child) as [c|] eqn:Hc.
      - exists c. split; [reflexivity|].
        apply findCategory_body_sound in Hc as [-> _].
        rewrite preorder_eq in Hchild. now apply Forall_cons in Hchild as [? _].
      - apply elem_of_app in Hin as [Hin|Hin].
        + pose proof (IHchild Hchild Hin). congruence.
        + now apply IHits. }
    destruct Hfound as (c & -> & Hc). simpl.
    apply String.eqb_neq in Hc. now rewrite Hc.
Qed.

Lemma findCategory_absent (hobbies : list Hobby) (target : string) :
  target ∉ preorder_forest hobbies → findCategory hobbies target = None.
Proof.
  intros Hnot. apply first_return_None. intros hobby Hin.
  destruct (findCategory_body target hobby) as [c|] eqn:Hc; [|reflexivity].
  exfalso. apply Hnot. apply findCategory_body_sound in Hc as [_ Ht].
  apply preorder_forest_elem. eauto.
Qed.

(** X9. A name the taxonomy does not have is shown in white, whatever the
    [Map] holds; and so is the empty name, even when a node has it. *)
Theorem getHobbyColor_fallback (categoryColors : gmap string string)
    (data : list Hobby) (hobbyName : string) :
  (hobbyName ∉ preorder_forest data →
     getHobbyColor categoryColors data hobbyName = "#FFFFFF"%string) ∧
  getHobbyColor categoryColors data "" = "#FFFFFF"%string.
Proof.
  split.
  - intros Hnot. unfold getHobbyColor. rewrite findCategory_absent; [reflexivity|].
    now rewrite <- flatten_elem in Hnot.
  - unfold getHobbyColor.
    destruct (findCategory (sortByScore data) "") as [c|] eqn:Hc; [|reflexivity].
    enough (c = ""%string) as -> by reflexivity.
    apply first_return_Some in Hc as (hobby & _ & Hbody). clear data.
    revert c Hbody. induction hobby as [nm sc|nm its sc IH] using Hobby_forest_ind;
      intros c; simpl.
    + destruct (String.eqb_spec nm "") as [->|_]; [|discriminate]. now intros [= <-].
    + destruct (String.eqb_spec nm "") as [->|_]; [now intros [= <-]|].
      destruct (first_return (findCategory_body "") its) as [found|] eqn:Hf;
        [|discriminate].
      apply first_return_Some in Hf as (child & Hchild & Hbody).
      rewrite List.Forall_forall in IH. rewrite (IH child Hchild found Hbody).
      discriminate.
Qed.

Lemma findCategory_first (data : list Hobby) (hobbyName : string) (i : nat)
    (category : Hobby) :
  Forall (λ n, n ≠ ""%string) (preorder_forest data) →
  sortByScore data !! i = Some category →
  hobbyName ∈ preorder category →
  (∀ j other, (j < i)%nat → sortByScore data !! j = Some other →
              hobbyName ∉ preorder other) →
  findCategory (sortByScore data) hobbyName = Some (name category) ∧
  name category ≠ ""%string.
Proof.
  intros Hne Hi Hin Hfirst.
  assert (Hne' : ∀ hobby, In hobby (sortByScore data) →
                          Forall (λ n, n ≠ ""%string) (preorder hobby)).
  { intros hobby Hh. apply List.Forall_forall. intros n Hn.
    rewrite List.Forall_forall in Hne. apply Hne.
    apply list_elem_of_In, flatten_elem, preorder_forest_elem.
    exists hobby. split; [exact Hh|now apply list_elem_of_In]. }
  assert (Hcat : In category (sortByScore data)).
  { apply list_elem_of_In, list_elem_of_lookup. eauto. }
  split.
  - unfold findCategory.
    apply (first_return_at _ _ i category (name category) Hi).
    + apply findCategory_body_complete; auto.
    + intros j other Hj Hother.
      destruct (findCategory_body hobbyName other) as [c|] eqn:Hc; [|reflexivity].
      apply findCategory_body_sound in Hc as [_ Hc].
      exfalso. exact (Hfirst j other Hj Hother Hc).
  - specialize (Hne' category Hcat). rewrite preorder_eq in Hne'.
    now apply Forall_cons in Hne' as [Hn _].
Qed.

Lemma getHobbyColor_found (categoryColors : gmap string string) (data : list Hobby)
    (hobbyName c : string) :
  findCategory (sortByScore data) hobbyName = Some c → c ≠ ""%string →
  getHobbyColor categoryColors data hobbyName =
  default "#FFFFFF"%string (categoryColors !! c).
Proof.
  intros Hfound Hc. unfold getHobbyColor. rewrite Hfound. simpl.
  apply String.eqb_neq in Hc. now rewrite Hc.
Qed.

(** X10. When no name of the taxonomy is empty, a name is shown in the
    colour the [Map] holds for the first top-level category, in sorted
    order, that has the name at or below it (white when the [Map] has none
    for that category). *)
Theorem getHobbyColor_first_category (categoryColors : gmap string string)
    (data : list Hobby) (hobbyName : string) (i : nat) (category : Hobby) :
  Forall (λ n, n ≠ ""%string) (preorder_forest data) →
  sortByScore data !! i = Some category →
  hobbyName ∈ preorder category →
  (∀ j other, (j < i)%nat → sortByScore data !! j = Some other →
              hobbyName ∉ preorder other) →
  getHobbyColor categoryColors data hobbyName =
  default "#FFFFFF"%string (categoryColors !! name category).
Proof.
  intros Hne Hi Hin Hfirst.
  destruct (findCategory_first data hobbyName i category Hne Hi Hin Hfirst)
    as [Hfound Hname].
  now apply getHobbyColor_found.
Qed.

Lemma example_names_nonempty :
  Forall (λ n, n ≠ ""%string) (preorder_forest example_forest).
Proof. vm_compute. repeat constructor; discriminate. Qed.

Lemma example_names_distinct : NoDup (preorder_forest example_forest).
Proof.
  vm_compute. repeat constructor; rewrite ?list_elem_of_In; simpl;
    intuition discriminate.
Qed.

Lemma getHobbyColor_first_category_witness :
  Forall (λ n, n ≠ ""%string) (preorder_forest example_forest) ∧
  getHobbyColor {[ "Music"%string := "#FFD5D5"%string ]} example_forest "Piano"
  = "#FFD5D5"%string.
Proof.
  split; [exact example_names_nonempty|].
  rewrite (getHobbyColor_first_category _ example_forest "Piano" 0
             (mkHobby "Music" (Some [mkHobby "Piano" None 8; mkHobby "Guitar" None 5]) 10)
             example_names_nonempty).
  - vm_compute. reflexivity.
  - vm_compute. reflexivity.
  - vm_compute. apply list_elem_of_In. simpl. tauto.
  - intros j other Hj. lia.
Defined.

(** ** Descendants share the colour of their category *)

Lemma map_name_sublist (f : list Hobby) : sublist (map name f) (preorder_forest f).
Proof.
  unfold preorder_forest. induction f as [|hobby f IH]; simpl; [constructor|].
  rewrite preorder_eq. simpl. apply sublist_skip.
  now apply sublist_inserts_l.
Qed.

Lemma NoDup_concat_disjoint {A : Type} (ls : list (list A)) (i j : nat)
    (a b : list A) (x : A) :
  NoDup (concat ls) → ls !! i = Some a → ls !! j = Some b → i ≠ j →
  x ∈ a → x ∉ b.
Proof.
  revert i j. induction ls as [|l ls IH]; intros i j Hnd Hi Hj Hij Ha Hb;
    [discriminate|].
  simpl in Hnd. apply NoDup_app in Hnd as (_ & Hdisj & Hnd).
  assert (Hmem : ∀ k c, ls !! k = Some c → x ∈ c → x ∈ concat ls).
  { intros k c Hk Hc. apply list_elem_of_In, in_concat. exists c. split.
    - apply list_elem_of_In, list_elem_of_lookup. eauto.
    - now apply list_elem_of_In. }
  destruct i as [|i], j as [|j]; simpl in Hi, Hj; try congruence.
  - injection Hi as ->. apply (Hdisj x Ha). eapply Hmem; eassumption.
  - injection Hj as ->. apply (Hdisj x Hb). eapply Hmem; eassumption.
  - apply (IH i j); auto.
Qed.

(** X11. When the names of the taxonomy are distinct and none is empty:
    after initialisation, every name at or below the category of rank [i]
    is shown in the colour of that rank, the palette colour [baseColors[i]]
    for the first ten categories. *)
Theorem getHobbyColor_subtree (Math_random : nat → Q) (data : list Hobby)
    (hobbyName : string) (i : nat) (category : Hobby) :
  NoDup (preorder_forest data) →
  Forall (λ n, n ≠ ""%string) (preorder_forest data) →
  sortByScore data !! i = Some category →
  hobbyName ∈ preorder category →
  let categoryColors :=
    categoryColorsMap (initializeCategoryColors Math_random data initialColorState) in
  getHobbyColor categoryColors data hobbyName = rankColor Math_random i ∧
  getHobbyColor categoryColors data hobbyName =
    getHobbyColor categoryColors data (name category) ∧
  ((i < 10)%nat → baseColors !! i = Some (getHobbyColor categoryColors data hobbyName)).
Proof.
  intros Hnd Hne Hi Hin categoryColors.
  assert (Hflat : NoDup (flatten data)).
  { apply NoDup_ListNoDup. eapply Permutation_NoDup;
      [apply Permutation_sym, flatten_perm|now apply NoDup_ListNoDup]. }
  assert (Hfirst : ∀ x, x ∈ preorder category →
            ∀ j other, (j < i)%nat → sortByScore data !! j = Some other →
                       x ∉ preorder other).
  { intros x Hx j other Hj Hother.
    apply (NoDup_concat_disjoint (map preorder (sortByScore data)) i j
             (preorder category)); auto with lia.
    - now rewrite list_lookup_fmap, Hi.
    - now rewrite list_lookup_fmap, Hother. }
  assert (Htop : NoDup (map name data)).
  { eapply sublist_NoDup; [exact Hnd|apply map_name_sublist]. }
  destruct (initializeCategoryColors_rank Math_random data Htop) as [Hrank _].
  assert (Hcolor : ∀ x, x ∈ preorder category →
            getHobbyColor categoryColors data x = rankColor Math_random i).
  { intros x Hx.
    destruct (findCategory_first data x i category Hne Hi Hx (Hfirst x Hx))
      as [Hfound Hname].
    rewrite (getHobbyColor_found categoryColors data x _ Hfound Hname).
    unfold categoryColors. now rewrite (Hrank i category Hi). }
  assert (Hself : name category ∈ preorder category).
  { rewrite preorder_eq. apply list_elem_of_here. }
  split; [now apply Hcolor|]. split; [now rewrite !Hcolor|].
  intros Hlt. rewrite Hcolor by assumption. unfold rankColor.
  destruct (Nat.ltb_spec i (length baseColors)) as [_|Hge]; [|simpl in Hge; lia].
  destruct (lookup_lt_is_Some_2 baseColors i) as [c Hc]; [simpl; lia|].
  now rewrite Hc.
Qed.

Lemma getHobbyColor_subtree_witness :
  NoDup (preorder_forest example_forest) ∧
  Forall (λ n, n ≠ ""%string) (preorder_forest example_forest) ∧
  getHobbyColor
    (categoryColorsMap (initializeCategoryColors (fun _ => 0%Q) example_forest
                          initialColorState))
    example_forest "Guitar" = "#FFD5D5"%string.
Proof.
  split; [exact example_names_distinct|]. split; [exact example_names_nonempty|].
  destruct (getHobbyColor_subtree (fun _ => 0%Q) example_forest "Guitar" 0
              (mkHobby "Music" (Some [mkHobby "Piano" None 8; mkHobby "Guitar" None 5]) 10)
              example_names_distinct example_names_nonempty) as [Hc _].
  - vm_compute. reflexivity.
  - vm_compute. apply list_elem_of_In. simpl. tauto.
  - rewrite Hc. reflexivity.
Defined.

(** ** The rendered tree *)

Section RenderFacts.
Variable categoryColors : gmap string string.
Variable data : list Hobby.
Variable selectedHobbies : list string.

Lemma labels_renderHobby (renderItems : list Hobby → string → Rendered)
    (hobby : Hobby) (parentPath : string) :
  labels (renderHobby categoryColors data selectedHobbies renderItems hobby parentPath)
  = name hobby ::
    match items hobby with
    | Some its =>
        labels (renderItems (sortByScore its) (currentPathOf parentPath (name hobby)))
    | None => []
    end.
Proof. unfold renderHobby. simpl. destruct (items hobby); reflexivity. Qed.

Lemma buttons_renderHobby (renderItems : list Hobby → string → Rendered)
    (hobby : Hobby) (parentPath : string) :
  buttons (renderHobby categoryColors data selectedHobbies renderItems hobby parentPath)
  = match items hobby with
    | Some its =>
        buttons (renderItems (sortByScore its) (currentPathOf parentPath (name hobby)))
    | None => []
    end.
Proof. unfold renderHobby. simpl. destruct (items hobby); reflexivity. Qed.

Lemma ids_renderHobby (renderItems : list Hobby → string → Rendered)
    (hobby : Hobby) (parentPath : string) (ancestors : list string) :
  ids ancestors
      (renderHobby categoryColors data selectedHobbies renderItems hobby parentPath)
  = (ancestors ++ [name hobby], currentPathOf parentPath (name hobby)) ::
    match items hobby with
    | Some its =>
        ids (ancestors ++ [name hobby])
            (renderItems (sortByScore its) (currentPathOf parentPath (name hobby)))
    | None => []
    end.
Proof. unfold renderHobby. simpl. destruct (items hobby); reflexivity. Qed.
End RenderFacts.

Lemma slice0_nonneg {A : Type} (v : Z) (l : list A) :
  0 <= v → slice0 v l = take (Z.to_nat v) l.
Proof.
  intros Hv. unfold slice0. destruct (Z.ltb_spec v 0) as [|_]; [lia|].
  destruct (Z.le_ge_cases v (Z.of_nat (length l))) as [Hle|Hge].
  - now rewrite Z.min_l.
  - rewrite Z.min_r, Nat2Z.id by lia.
    rewrite !take_ge; [reflexivity|lia|lia].
Qed.

Lemma slice0_sublist {A : Type} (v : Z) (l : list A) : sublist (slice0 v l) l.
Proof. unfold slice0. apply sublist_take. Qed.

Lemma slice0_all {A : Type} (v : Z) (l : list A) :
  Z.of_nat (length l) <= v → slice0 v l = l.
Proof.
  intros Hv. rewrite slice0_nonneg by lia. apply take_ge. lia.
Qed.

Lemma sublist_concat_map {A B : Type} (F G : A → list B) (l' l : list A) :
  (∀ x, In x l → sublist (F x) (G x)) → sublist l' l →
  sublist (concat (map F l')) (concat (map G l)).
Proof.
  intros HFG Hsub. induction Hsub as [|x l' l _ IH|x l' l _ IH]; simpl.
  - constructor.
  - apply sublist_app; [apply HFG; now left|].
    apply IH. intros y Hy. apply HFG. now right.
  - apply sublist_inserts_l. apply IH. intros y Hy. apply HFG. now right.
Qed.

Lemma forest_depth_le (n : nat) (f : list Hobby) :
  (forest_depth f ≤ S n)%nat ↔ Forall (λ hobby, (depth hobby ≤ n)%nat) f.
Proof.
  unfold forest_depth. rewrite <- Nat.succ_le_mono, list_max_le, List.Forall_map.
  reflexivity.
Qed.

Lemma depth_withSortedItems (n : nat) (hobby : Hobby) :
  (∀ its, items hobby = Some its → (forest_depth (sortByScore its) ≤ n)%nat) →
  (depth hobby ≤ n)%nat → (depth (withSortedItems sortByScore hobby) ≤ n)%nat.
Proof.
  destruct hobby as [nm [its|] sc]; unfold withSortedItems; simpl; [|trivial].
  intros H _. exact (H its eq_refl).
Qed.

(** Sorting does not deepen a forest. *)
Lemma forest_depth_sortByScore (n : nat) (f : list Hobby) :
  (forest_depth f ≤ n)%nat → (forest_depth (sortByScore f) ≤ n)%nat.
Proof.
  revert f. induction n as [|n IH]; intros f Hn.
  { unfold forest_depth in Hn. lia. }
  rewrite sortByScore_eq. apply forest_depth_le. apply forest_depth_le in Hn.
  apply List.Forall_forall. intros h Hh.
  apply in_map_iff in Hh as (h0 & <- & Hh0). apply Array_sort_In in Hh0.
  rewrite List.Forall_forall in Hn. specialize (Hn h0 Hh0).
  apply depth_withSortedItems; [|exact Hn].
  intros its Hits. apply IH. apply items_depth in Hits. lia.
Qed.

(** On a sorted forest the pre-order is what [flatten] lists. *)
Lemma preorder_sorted_sortByScore (f : list Hobby) :
  concat (map preorder_sorted (sortByScore f)) = flatten f.
Proof.
  unfold flatten, preorder_forest. f_equal. apply map_ext_in. intros hobby Hin.
  unfold preorder_sorted. rewrite preorder_eq.
  destruct (items hobby) as [its|] eqn:Hits; [|reflexivity].
  unfold flatten. now rewrite (sortByScore_items_sorted f its hobby Hin Hits).
Qed.

Lemma width_le (bound : nat) (f : list Hobby) :
  (width f ≤ bound)%nat ↔
  (length f ≤ bound)%nat ∧ Forall (λ hobby, (width_below hobby ≤ bound)%nat) f.
Proof.
  unfold width. rewrite Nat.max_lub_iff, list_max_le, List.Forall_map. reflexivity.
Qed.

Lemma width_below_items (hobby : Hobby) (its : list Hobby) :
  items hobby = Some its → width_below hobby = width its.
Proof. destruct hobby as [nm [l|] sc]; simpl; intros [= ->]; reflexivity. Qed.

Lemma width_sortByScore_bounded (n bound : nat) (f : list Hobby) :
  (forest_depth f ≤ n)%nat → (width f ≤ bound)%nat →
  (width (sortByScore f) ≤ bound)%nat.
Proof.
  revert f. induction n as [|n IH]; intros f Hn Hw.
  { unfold forest_depth in Hn. lia. }
  apply width_le in Hw as [Hlen Hall]. apply width_le.
  split; [now rewrite length_sortByScore|].
  rewrite sortByScore_eq. apply List.Forall_forall. intros h Hh.
  apply in_map_iff in Hh as (h0 & <- & Hh0). apply Array_sort_In in Hh0.
  rewrite List.Forall_forall in Hall. specialize (Hall h0 Hh0).
  apply forest_depth_le in Hn. rewrite List.Forall_forall in Hn.
  specialize (Hn h0 Hh0).
  destruct h0 as [nm [its|] sc]; unfold withSortedItems; simpl; [|lia].
  change (width (sortByScore its) ≤ bound)%nat. apply IH.
  - simpl in Hn. unfold forest_depth. lia.
  - exact Hall.
Qed.

(** Sorting does not widen a forest. *)
Lemma width_sortByScore (bound : nat) (f : list Hobby) :
  (width f ≤ bound)%nat → (width (sortByScore f) ≤ bound)%nat.
Proof. apply (width_sortByScore_bounded (forest_depth f)). lia. Qed.

Section RenderTreeFacts.
Variable categoryColors : gmap string string.
Variable data : list Hobby.
Variable selectedHobbies : list string.

Let render := renderItems_fuel categoryColors data selectedHobbies.

Lemma labels_renderItems_fuel (es : gmap string Z) (fuel : nat)
    (hobbies : list Hobby) (parentPath : string) :
  labels (render es fuel hobbies parentPath) =
  concat (map (fun hobby =>
                 labels (renderHobby categoryColors data selectedHobbies
                           (match fuel with
                            | O => fun _ _ => Items [] None
                            | S fuel' => render es fuel'
                            end) hobby parentPath))
              (slice0 (visibleCount es parentPath) hobbies)).
Proof. destruct fuel; simpl; now rewrite map_map. Qed.

Lemma buttons_renderItems_fuel (es : gmap string Z) (fuel : nat)
    (hobbies : list Hobby) (parentPath : string) :
  buttons (render es fuel hobbies parentPath) =
  concat (map (fun hobby =>
                 buttons (renderHobby categoryColors data selectedHobbies
                            (match fuel with
                             | O => fun _ _ => Items [] None
                             | S fuel' => render es fuel'
                             end) hobby parentPath))
              (slice0 (visibleCount es parentPath) hobbies)) ++
  (if 0 <? Z.of_nat (length hobbies) - visibleCount es parentPath
   then [(Z.of_nat (length hobbies) - visibleCount es parentPath, pathKey parentPath)]
   else []).
Proof.
  destruct fuel; simpl; rewrite map_map;
    now destruct (0 <? Z.of_nat (length hobbies) - visibleCount es parentPath).
Qed.

(** The labels of a rendered list are among the names [flatten] lists for
    it, in that order. *)
Lemma labels_sublist (es : gmap string Z) (fuel : nat) :
  ∀ hobbies parentPath,
    (forest_depth hobbies ≤ fuel)%nat →
    sublist (labels (render es fuel hobbies parentPath))
            (concat (map preorder_sorted hobbies)).
Proof.
  induction fuel as [|fuel IH]; intros hobbies parentPath Hfuel.
  { unfold forest_depth in Hfuel. lia. }
  rewrite labels_renderItems_fuel.
  apply sublist_concat_map; [|apply slice0_sublist].
  intros hobby Hin.
  rewrite labels_renderHobby.
  unfold preorder_sorted. apply sublist_skip.
  destruct (items hobby) as [its|] eqn:Hits; [|constructor].
  rewrite <- preorder_sorted_sortByScore. apply IH.
  apply forest_depth_sortByScore. apply items_depth in Hits.
  apply forest_depth_le in Hfuel. rewrite List.Forall_forall in Hfuel.
  specialize (Hfuel hobby Hin). lia.
Qed.

(** With every list within the visible count, everything is shown and
    there is no button. *)
Lemma labels_all (es : gmap string Z) (bound : nat) (fuel : nat) :
  (∀ parentPath, Z.of_nat bound <= visibleCount es parentPath) →
  ∀ hobbies parentPath,
    (forest_depth hobbies ≤ fuel)%nat → (width hobbies ≤ bound)%nat →
    labels (render es fuel hobbies parentPath) = concat (map preorder_sorted hobbies) ∧
    buttons (render es fuel hobbies parentPath) = [].
Proof.
  intros Hvisible. induction fuel as [|fuel IH]; intros hobbies parentPath Hfuel Hwidth.
  { unfold forest_depth in Hfuel. lia. }
  assert (Hlen : Z.of_nat (length hobbies) <= visibleCount es parentPath).
  { specialize (Hvisible parentPath). unfold width in Hwidth. lia. }
  assert (Hchild : ∀ hobby its currentPath, In hobby hobbies → items hobby = Some its →
            labels (render es fuel (sortByScore its) currentPath) = flatten its ∧
            buttons (render es fuel (sortByScore its) currentPath) = []).
  { intros hobby its currentPath Hin Hits.
    rewrite <- preorder_sorted_sortByScore. apply IH.
    - apply forest_depth_sortByScore. apply items_depth in Hits.
      apply forest_depth_le in Hfuel. rewrite List.Forall_forall in Hfuel.
      specialize (Hfuel hobby Hin). lia.
    - apply width_sortByScore. apply width_le in Hwidth as [_ Hall].
      rewrite List.Forall_forall in Hall. specialize (Hall hobby Hin).
      now rewrite (width_below_items hobby its Hits) in Hall. }
  rewrite labels_renderItems_fuel, buttons_renderItems_fuel, slice0_all by exact Hlen.
  split.
  - f_equal. apply map_ext_in. intros hobby Hin.
    rewrite labels_renderHobby.
    unfold preorder_sorted. f_equal.
    destruct (items hobby) as [its|] eqn:Hits; [|reflexivity].
    now apply (Hchild hobby its).
  - destruct (Z.ltb_spec 0 (Z.of_nat (length hobbies) - visibleCount es parentPath));
      [lia|].
    rewrite app_nil_r. apply concat_nil_Forall, List.Forall_forall.
    intros l Hl. apply in_map_iff in Hl as (hobby & <- & Hin).
    rewrite buttons_renderHobby.
    destruct (items hobby) as [its|] eqn:Hits; [|reflexivity].
    now apply (Hchild hobby its).
Qed.
(** A larger visible count everywhere shows at least what was shown. *)
Lemma labels_mono (es1 es2 : gmap string Z) (fuel : nat) :
  (∀ parentPath, 0 <= visibleCount es1 parentPath <= visibleCount es2 parentPath) →
  ∀ hobbies parentPath,
    sublist (labels (render es1 fuel hobbies parentPath))
            (labels (render es2 fuel hobbies parentPath)).
Proof.
  intros Hle. induction fuel as [|fuel IH]; intros hobbies parentPath;
    rewrite !labels_renderItems_fuel.
  - apply sublist_concat_map.
    + intros hobby _. rewrite !labels_renderHobby.
      destruct (items hobby); reflexivity.
    + destruct (Hle parentPath) as [H0 H12].
      rewrite !slice0_nonneg by lia.
      replace (take (Z.to_nat (visibleCount es1 parentPath)) hobbies)
        with (take (Z.to_nat (visibleCount es1 parentPath))
                (take (Z.to_nat (visibleCount es2 parentPath)) hobbies))
        by (rewrite take_take; f_equal; lia).
      apply sublist_take.
  - apply sublist_concat_map.
    + intros hobby _. rewrite !labels_renderHobby. apply sublist_skip.
      destruct (items hobby); [apply IH|reflexivity].
    + destruct (Hle parentPath) as [H0 H12].
      rewrite !slice0_nonneg by lia.
      replace (take (Z.to_nat (visibleCount es1 parentPath)) hobbies)
        with (take (Z.to_nat (visibleCount es1 parentPath))
                (take (Z.to_nat (visibleCount es2 parentPath)) hobbies))
        by (rewrite take_take; f_equal; lia).
      apply sublist_take.
Qed.

Lemma ids_renderItems_fuel (es : gmap string Z) (fuel : nat)
    (hobbies : list Hobby) (parentPath : string) (ancestors : list string) :
  ids ancestors (render es fuel hobbies parentPath) =
  concat (map (fun hobby =>
                 ids ancestors
                     (renderHobby categoryColors data selectedHobbies
                        (match fuel with
                         | O => fun _ _ => Items [] None
                         | S fuel' => render es fuel'
                         end) hobby parentPath))
              (slice0 (visibleCount es parentPath) hobbies)).
Proof. destruct fuel; simpl; now rewrite map_map. Qed.

Lemma row_labels_renderItems_fuel (es : gmap string Z) (fuel : nat)
    (hobbies : list Hobby) (parentPath : string) :
  row_labels (render es fuel hobbies parentPath) =
    map name (slice0 (visibleCount es parentPath) hobbies) ∧
  button_of (render es fuel hobbies parentPath) =
    (if 0 <? Z.of_nat (length hobbies) - visibleCount es parentPath
     then Some (Z.of_nat (length hobbies) - visibleCount es parentPath,
                pathKey parentPath)
     else None).
Proof. destruct fuel; simpl; rewrite map_map; split; reflexivity. Qed.
End RenderTreeFacts.

(** ** Path ids *)

Lemma String_concat_snoc (sep : string) (l : list string) (x : string) :
  l ≠ [] →
  String.concat sep (l ++ [x]) = (String.concat sep l ++ sep ++ x)%string.
Proof.
  induction l as [|a l IH]; [congruence|]. intros _.
  destruct l as [|b l]; [reflexivity|].
  change (String.concat sep ((a :: b :: l) ++ [x]))
    with (a ++ sep ++ String.concat sep ((b :: l) ++ [x]))%string.
  rewrite IH by discriminate.
  change (String.concat sep (a :: b :: l))
    with (a ++ sep ++ String.concat sep (b :: l))%string.
  now rewrite !append_assoc.
Qed.

Lemma String_concat_nonempty (sep : string) (l : list string) :
  l ≠ [] → Forall (λ n, n ≠ ""%string) l → String.concat sep l ≠ ""%string.
Proof.
  destruct l as [|a l]; [congruence|]. intros _ Hne.
  apply Forall_cons in Hne as [Ha _].
  destruct a as [|c a]; [congruence|].
  destruct l; simpl; discriminate.
Qed.

Lemma currentPathOf_concat (ancestors : list string) (hobbyName : string) :
  Forall (λ n, n ≠ ""%string) ancestors →
  currentPathOf (String.concat "-" ancestors) hobbyName =
  String.concat "-" (ancestors ++ [hobbyName]).
Proof.
  intros Hne. unfold currentPathOf. destruct ancestors as [|a l]; [reflexivity|].
  destruct (String.eqb_spec (String.concat "-" (a :: l)) "") as [He|_].
  - exfalso. revert He. now apply String_concat_nonempty.
  - now rewrite String_concat_snoc.
Qed.

Lemma ids_joined (categoryColors : gmap string string) (data : list Hobby)
    (selectedHobbies : list string) (es : gmap string Z) (fuel : nat) :
  ∀ hobbies ancestors,
    Forall (λ n, n ≠ ""%string) ancestors →
    Forall (λ n, n ≠ ""%string) (preorder_forest hobbies) →
    Forall (λ ci, ci.2 = String.concat "-" ci.1)
           (ids ancestors
                (renderItems_fuel categoryColors data selectedHobbies es fuel
                   hobbies (String.concat "-" ancestors))).
Proof.
  induction fuel as [|fuel IH]; intros hobbies ancestors Hanc Hne;
    rewrite ids_renderItems_fuel; apply List.Forall_forall; intros ci Hci;
    apply in_concat in Hci as (l & Hl & Hci);
    apply in_map_iff in Hl as (hobby & <- & Hin);
    apply list_elem_of_In in Hin;
    apply (λ H, elem_of_sublist _ _ _ H (slice0_sublist _ hobbies)) in Hin;
    apply list_elem_of_In in Hin;
    rewrite ids_renderHobby in Hci.
  - destruct Hci as [<-|Hci].
    + simpl. now apply currentPathOf_concat.
    + destruct (items hobby); destruct Hci.
  - destruct Hci as [<-|Hci].
    + simpl. now apply currentPathOf_concat.
    + destruct (items hobby) as [its|] eqn:Hits; [|destruct Hci].
      rewrite currentPathOf_concat in Hci by assumption.
      assert (Hname : name hobby ≠ ""%string ∧
                      Forall (λ n, n ≠ ""%string) (preorder_forest its)).
      { rewrite List.Forall_forall in Hne. split.
        - apply Hne. apply list_elem_of_In, preorder_forest_elem.
          exists hobby. split; [exact Hin|]. rewrite preorder_eq. apply list_elem_of_here.
        - apply List.Forall_forall. intros n Hn. apply Hne.
          apply list_elem_of_In, preorder_forest_elem.
          exists hobby. split; [exact Hin|]. apply preorder_elem. right.
          exists its. split; [exact Hits|now apply list_elem_of_In]. }
      destruct Hname as [Hname Hbelow].
      assert (Hall : Forall (λ ci, ci.2 = String.concat "-" ci.1)
                (ids (ancestors ++ [name hobby])
                   (renderItems_fuel categoryColors data selectedHobbies es fuel
                      (sortByScore its)
                      (String.concat "-" (ancestors ++ [name hobby]))))).
      { apply IH.
        - apply Forall_app. split; [exact Hanc|]. now constructor.
        - apply List.Forall_forall. intros n Hn.
          rewrite List.Forall_forall in Hbelow. apply Hbelow.
          now apply list_elem_of_In, flatten_elem, list_elem_of_In. }
      rewrite List.Forall_forall in Hall. now apply Hall.
Qed.

(** ** The page *)

Lemma visibleCount_showMore_each (keys : list string) (parentPath : string) :
  visibleCount (showMore_each keys) parentPath =
  5 + 5 * Z.of_nat (length (filter (λ k, k = pathKey parentPath) keys)).
Proof.
  unfold visibleCount, showMore_each.
  rewrite (proj2 (showMore_fold_count keys ∅ (pathKey parentPath)
                    ltac:(intros k v; rewrite lookup_empty; discriminate))).
  reflexivity.
Qed.

Lemma showMore_showMore_each (keys : list string) (key : string) :
  showMore key (showMore_each keys) = showMore_each (keys ++ [key]).
Proof. unfold showMore_each. now rewrite fold_left_app. Qed.

Lemma renderTree_eq (categoryColors : gmap string string) (data : list Hobby)
    (selectedHobbies : list string) (es : gmap string Z) :
  renderTree categoryColors data selectedHobbies es =
  renderItems_fuel categoryColors data selectedHobbies es
    (forest_depth (sortByScore data)) (sortByScore data) "".
Proof.
  unfold renderTree, renderHobbiesAndItems, renderItems.
  now rewrite sortByScore_twice.
Qed.

(** X12. Whatever is selected, expanded or coloured, the labels of the
    rendered tree, read from top to bottom, are names of the flattened list
    in the order of the flattened list: the tree, the search results and the
    selected tags show names in one and the same relative order. *)
Theorem renderTree_labels_in_flatten_order (categoryColors : gmap string string)
    (data : list Hobby) (selectedHobbies : list string)
    (expandedSections : gmap string Z) :
  sublist (labels (renderTree categoryColors data selectedHobbies expandedSections))
          (flatten data).
Proof.
  rewrite renderTree_eq, <- preorder_sorted_sortByScore.
  apply labels_sublist. lia.
Qed.




(** X15. After any sequence of [showMore] calls, one more call, with any
    key, takes nothing off the page: the labels the tree showed are still
    there, in the same order. *)
Theorem showMore_never_hides (categoryColors : gmap string string)
    (data : list Hobby) (selectedHobbies : list string)
    (keys : list string) (key : string) :
  sublist
    (labels (renderTree categoryColors data selectedHobbies (showMore_each keys)))
    (labels (renderTree categoryColors data selectedHobbies
               (showMore key (showMore_each keys)))).
Proof.
  rewrite !renderTree_eq, showMore_showMore_each. apply labels_mono.
  intros parentPath. rewrite !visibleCount_showMore_each.
  rewrite filter_app, length_app. lia.
Qed.

(** X16. When no name of the taxonomy is empty, the id of every check box
    of the rendered tree is the names from the top-level category down to
    its node, joined with "-". *)
Theorem renderTree_ids_joined (categoryColors : gmap string string)
    (data : list Hobby) (selectedHobbies : list string)
    (expandedSections : gmap string Z) :
  Forall (λ n, n ≠ ""%string) (preorder_forest data) →
  Forall (λ ci, ci.2 = String.concat "-" ci.1)
         (ids [] (renderTree categoryColors data selectedHobbies expandedSections)).
Proof.
  intros Hne. rewrite renderTree_eq.
  apply (ids_joined categoryColors data selectedHobbies expandedSections
           (forest_depth (sortByScore data)) (sortByScore data) []).
  - constructor.
  - apply List.Forall_forall. intros n Hn.
    rewrite List.Forall_forall in Hne. apply Hne.
    now apply list_elem_of_In, flatten_elem, list_elem_of_In.
Qed.

Lemma renderTree_ids_joined_witness :
  Forall (λ n, n ≠ ""%string) (preorder_forest example_forest) ∧
  Forall (λ ci : list string * string, ci.2 = String.concat "-" ci.1)
         (ids [] (renderTree ∅ example_forest [] ∅)) ∧
  ids [] (renderTree ∅ example_forest [] ∅) =
    [(["Music"], "Music"); (["Music"; "Piano"], "Music-Piano");
     (["Music"; "Guitar"], "Music-Guitar"); (["Sports"], "Sports")]%string.
Proof.
  split; [exact example_names_nonempty|]. split.
  - exact (renderTree_ids_joined ∅ example_forest [] ∅ example_names_nonempty).
  - vm_compute. reflexivity.
Defined.
